(** * Nachos multi-level scheduler (threads/scheduler.cc)

    A shallow embedding of [Scheduler::ReadyToRun], [Scheduler::aging],
    [Scheduler::processMoving], [Scheduler::FindNextToRun], [Scheduler::Run]
    and [Scheduler::CheckToBeDestroyed], followed by the properties of the
    design document that concern them.

    Threads are heap objects shared between the kernel and the three ready
    lists: the lists hold pointers, and the fields of a thread are read
    through the pointer each time.  The model therefore keeps one store
    [threads] from pointers to thread records, and the lists hold pointers.

    C++ [int] values are modelled as [Z]; the scheduler performs no
    arithmetic that leaves the [int] range on the tick values and priorities
    a running kernel produces (signed overflow would be undefined
    behaviour).  [double] values are IEEE binary64 numbers, modelled by
    Rocq's primitive floats.  Console output made with [cout] is recorded
    in the event trace together with the calls to the external hooks. *)

From Stdlib Require Import ZArith List Bool Lia Permutation Sorted.
From Stdlib Require Import Floats Uint63.
Import ListNotations.
Open Scope Z_scope.

(** ** Thread descriptors *)

(** A [Thread *]. *)
Definition ThreadPtr := nat.

(** Modelled from the spec: [enum ThreadStatus] is declared in thread.h,
    which is not part of the sources at hand; the scheduler itself only
    writes [READY] and [RUNNING]. *)
Inductive ThreadStatus := NEW | READY | RUNNING | BLOCKED | FINISHED.

(** Modelled from the spec: [class Thread] (thread.h).  The fields are those
    behind the accessors the scheduler calls: [setStatus], [getPriority] /
    [setPriority], [getBurstTime] / [setBurstTime], [getStartReadyTime] /
    [setStartReadyTime], [getStartBurst] / [setStartBurstTime], the public
    member [space] (here: whether it is non-NULL) and the stack fence that
    [CheckOverflow] inspects. *)
Record Thread := mkThread {
  status : ThreadStatus;
  priority : Z;
  burstTime : float;
  startReadyTime : Z;
  startBurst : Z;
  space : bool;
  stackIntact : bool
}.

Inductive IntStatus := IntOff | IntOn.

(** Names of the three list objects owned by the scheduler. *)
Inductive Queue := QRR | QPri | QSJF.

Definition Queue_eqb (a b : Queue) : bool :=
  match a, b with
  | QRR, QRR | QPri, QPri | QSJF, QSJF => true
  | _, _ => false
  end.

(** Observable calls: console lines and the machine-dependent hooks. *)
Inductive event :=
| EvTickThread (tick : Z) (t : ThreadPtr)
| EvProcessReady (t : ThreadPtr) (tick : Z)
| EvProcessRunning (t : ThreadPtr) (tick : Z)
| EvSaveUserState (t : ThreadPtr)
| EvSpaceSaveState (t : ThreadPtr)
| EvCheckOverflow (t : ThreadPtr)
| EvSWITCH (oldThread nextThread : ThreadPtr)
| EvDelete (t : ThreadPtr)
| EvRestoreUserState (t : ThreadPtr)
| EvSpaceRestoreState (t : ThreadPtr).

(** ** Kernel and scheduler state *)

Record state := mkState {
  threads : ThreadPtr -> Thread;           (* the thread objects *)
  readyRRList : list ThreadPtr;
  readyPriorityList : list ThreadPtr;
  readySJFList : list ThreadPtr;
  toBeDestroyed : option ThreadPtr;
  currentThread : ThreadPtr;               (* kernel->currentThread *)
  totalTicks : Z;                          (* kernel->stats->totalTicks *)
  level : IntStatus;                       (* kernel->interrupt->getLevel() *)
  trace : list event
}.

Definition getList (q : Queue) (st : state) : list ThreadPtr :=
  match q with
  | QRR => readyRRList st
  | QPri => readyPriorityList st
  | QSJF => readySJFList st
  end.

Definition setList (q : Queue) (l : list ThreadPtr) (st : state) : state :=
  match q with
  | QRR => mkState (threads st) l (readyPriorityList st) (readySJFList st)
             (toBeDestroyed st) (currentThread st) (totalTicks st) (level st) (trace st)
  | QPri => mkState (threads st) (readyRRList st) l (readySJFList st)
             (toBeDestroyed st) (currentThread st) (totalTicks st) (level st) (trace st)
  | QSJF => mkState (threads st) (readyRRList st) (readyPriorityList st) l
             (toBeDestroyed st) (currentThread st) (totalTicks st) (level st) (trace st)
  end.

Definition setThreads (f : ThreadPtr -> Thread) (st : state) : state :=
  mkState f (readyRRList st) (readyPriorityList st) (readySJFList st)
    (toBeDestroyed st) (currentThread st) (totalTicks st) (level st) (trace st).

(** A write through the pointer [t]: the object it points to changes, every
    other object stays as it is. *)
Definition updThread (t : ThreadPtr) (f : Thread -> Thread) (st : state) : state :=
  setThreads (fun x => (if Nat.eqb x t then f else fun th => th) (threads st x)) st.

Definition withToBeDestroyed (d : option ThreadPtr) (st : state) : state :=
  mkState (threads st) (readyRRList st) (readyPriorityList st) (readySJFList st)
    d (currentThread st) (totalTicks st) (level st) (trace st).

Definition withCurrentThread (t : ThreadPtr) (st : state) : state :=
  mkState (threads st) (readyRRList st) (readyPriorityList st) (readySJFList st)
    (toBeDestroyed st) t (totalTicks st) (level st) (trace st).

Definition withEvent (e : event) (st : state) : state :=
  mkState (threads st) (readyRRList st) (readyPriorityList st) (readySJFList st)
    (toBeDestroyed st) (currentThread st) (totalTicks st) (level st) (trace st ++ [e]).

(** Field writers of [Thread]. *)
Definition withStatus (s : ThreadStatus) (th : Thread) : Thread :=
  mkThread s (priority th) (burstTime th) (startReadyTime th) (startBurst th)
    (space th) (stackIntact th).
Definition withPriority (p : Z) (th : Thread) : Thread :=
  mkThread (status th) p (burstTime th) (startReadyTime th) (startBurst th)
    (space th) (stackIntact th).
Definition withBurstTime (b : float) (th : Thread) : Thread :=
  mkThread (status th) (priority th) b (startReadyTime th) (startBurst th)
    (space th) (stackIntact th).
Definition withStartReadyTime (n : Z) (th : Thread) : Thread :=
  mkThread (status th) (priority th) (burstTime th) n (startBurst th)
    (space th) (stackIntact th).
Definition withStartBurst (n : Z) (th : Thread) : Thread :=
  mkThread (status th) (priority th) (burstTime th) (startReadyTime th) n
    (space th) (stackIntact th).

(** ** Computations that may stop the machine *)

Inductive failure := AssertionFailed | NullDereference.

(** A call either returns a value in a new state, or the machine stops in
    the state reached so far. *)
Inductive result (A : Type) :=
| Ok (a : A) (s : state)
| Stop (why : failure) (s : state).
Arguments Ok {A} a s.
Arguments Stop {A} why s.

Definition M (A : Type) := state -> result A.

Definition ret {A} (a : A) : M A := fun st => Ok a st.

Definition bind {A B} (m : M A) (k : A -> M B) : M B :=
  fun st => match m st with
            | Ok a st' => k a st'
            | Stop w st' => Stop w st'
            end.

Declare Scope sched_scope.
Delimit Scope sched_scope with sched.
Notation "x <- m ;; k" := (bind m (fun x => k))
  (at level 61, m at next level, right associativity) : sched_scope.
Notation "m ;; k" := (bind m (fun _ => k))
  (at level 61, right associativity) : sched_scope.
Open Scope sched_scope.

Definition gets {A} (f : state -> A) : M A := fun st => Ok (f st) st.
Definition modify (f : state -> state) : M unit := fun st => Ok tt (f st).

(** [ASSERT(cond)]: print and abort when the condition is false. *)
Definition ASSERT (cond : state -> bool) : M unit :=
  fun st => if cond st then Ok tt st else Stop AssertionFailed st.

Definition interruptsOff (st : state) : bool :=
  match level st with IntOff => true | IntOn => false end.

(** The state component of an outcome. *)
Definition stateOf {A} (r : result A) : state :=
  match r with Ok _ s => s | Stop _ s => s end.

(** Accessors of [Thread] through a pointer. *)
Definition setStatus (t : ThreadPtr) (s : ThreadStatus) : M unit :=
  modify (updThread t (withStatus s)).
Definition getPriority (t : ThreadPtr) : M Z :=
  gets (fun st => priority (threads st t)).
Definition setPriority (t : ThreadPtr) (p : Z) : M unit :=
  modify (updThread t (withPriority p)).
Definition getBurstTime (t : ThreadPtr) : M float :=
  gets (fun st => burstTime (threads st t)).
Definition setBurstTime (t : ThreadPtr) (b : float) : M unit :=
  modify (updThread t (withBurstTime b)).
Definition getStartReadyTime (t : ThreadPtr) : M Z :=
  gets (fun st => startReadyTime (threads st t)).
Definition setStartReadyTime (t : ThreadPtr) (n : Z) : M unit :=
  modify (updThread t (withStartReadyTime n)).
Definition getStartBurst (t : ThreadPtr) : M Z :=
  gets (fun st => startBurst (threads st t)).
Definition setStartBurstTime (t : ThreadPtr) (n : Z) : M unit :=
  modify (updThread t (withStartBurst n)).

Definition emit (e : event) : M unit := modify (withEvent e).

(** Modelled from the spec: [Thread::CheckOverflow] (thread.cc) is a
    delegated check that is fatal when the stack of the thread has
    overflowed. *)
Definition CheckOverflow (t : ThreadPtr) : M unit :=
  emit (EvCheckOverflow t) ;;
  ASSERT (fun st => stackIntact (threads st t)).

(** ** The list library (lib/list.h) *)

(** Modelled from the spec: [Thread::compare_by_priority] orders the
    Priority queue by descending priority; a negative value means that the
    first thread goes before the second. *)
Definition compare_by_priority (th : ThreadPtr -> Thread) (x y : ThreadPtr) : Z :=
  if priority (th y) <? priority (th x) then -1
  else if priority (th x) <? priority (th y) then 1
  else 0.

(** Modelled from the spec: [Thread::compare_by_burst] orders the SJF queue
    by ascending predicted burst. *)
Definition compare_by_burst (th : ThreadPtr -> Thread) (x y : ThreadPtr) : Z :=
  if PrimFloat.ltb (burstTime (th x)) (burstTime (th y)) then -1
  else if PrimFloat.ltb (burstTime (th y)) (burstTime (th x)) then 1
  else 0.

(** Modelled from the spec: [SortedList<T>::Insert] keeps the list in the
    order of its comparison function, ties staying in insertion order: the
    item goes in front of the first element it is strictly before. *)
Fixpoint Insert (compare : ThreadPtr -> ThreadPtr -> Z) (item : ThreadPtr)
    (l : list ThreadPtr) : list ThreadPtr :=
  match l with
  | [] => [item]
  | y :: l' => if compare item y <? 0 then item :: y :: l'
               else y :: Insert compare item l'
  end.

(** Modelled from the spec: [List<T>::Remove] takes one reference to the
    item (the first) off the list. *)
Fixpoint Remove (item : ThreadPtr) (l : list ThreadPtr) : list ThreadPtr :=
  match l with
  | [] => []
  | y :: l' => if Nat.eqb item y then l' else y :: Remove item l'
  end.

(** The comparison function a list was constructed with
    ([Scheduler::Scheduler]); the Round-Robin list is a plain [List]. *)
Definition comparator (q : Queue) (th : ThreadPtr -> Thread)
  : option (ThreadPtr -> ThreadPtr -> Z) :=
  match q with
  | QRR => None
  | QPri => Some (compare_by_priority th)
  | QSJF => Some (compare_by_burst th)
  end.

(** Modelled from the spec: [Append] puts the item at the end of a plain
    list (insertion order, FIFO); on a [SortedList] it is the virtual
    override that inserts in sorted order. *)
Definition appended (q : Queue) (th : ThreadPtr -> Thread) (item : ThreadPtr)
    (l : list ThreadPtr) : list ThreadPtr :=
  match comparator q th with
  | None => l ++ [item]
  | Some cmp => Insert cmp item l
  end.

Definition List_Append (q : Queue) (item : ThreadPtr) : M unit :=
  modify (fun st => setList q (appended q (threads st) item (getList q st)) st).

Definition List_Remove (q : Queue) (item : ThreadPtr) : M unit :=
  modify (fun st => setList q (Remove item (getList q st)) st).

Definition List_IsEmpty (q : Queue) : M bool :=
  gets (fun st => match getList q st with [] => true | _ => false end).

(** Modelled from the spec: [List<T>::RemoveFront] takes the first item
    off the list and returns it; the list must not be empty. *)
Definition List_RemoveFront (q : Queue) : M ThreadPtr :=
  fun st => match getList q st with
            | [] => Stop AssertionFailed st
            | x :: l => Ok x (setList q l st)
            end.

(** [SortedList<T>::Insert] on the list object [q]; [q] must be one of the
    sorted lists. *)
Definition SortedList_Insert (q : Queue) (item : ThreadPtr) : M unit :=
  fun st => match comparator q (threads st) with
            | None => Stop NullDereference st
            | Some cmp => Ok tt (setList q (Insert cmp item (getList q st)) st)
            end.

(** [dynamic_cast<SortedList<Thread *>*>]: NULL for the plain list, and the
    iterator constructor then reads through the NULL pointer. *)
Definition dynamic_cast_SortedList (q : Queue) : M Queue :=
  fun st => match q with
            | QRR => Stop NullDereference st
            | _ => Ok q st
            end.

(** Modelled from the spec: [ListIterator<T>] (lib/list.h) walks the
    membership a list had when the iterator was constructed -- a stable
    snapshot -- so that removing the current item and inserting it elsewhere
    neither skips nor revisits an entry. *)
Definition ListIterator (q : Queue) : M (list ThreadPtr) :=
  gets (getList q).

(** [for (; !iter->IsDone(); iter->Next()) { body(iter->Item()); }] *)
Fixpoint forEach (iter : list ThreadPtr) (body : ThreadPtr -> M unit) : M unit :=
  match iter with
  | [] => ret tt
  | item :: rest => body item ;; forEach rest body
  end.

(** ** IEEE arithmetic of [Scheduler::Run] *)

(** Conversion of an [int] to [double]. *)
Definition double_of_int (z : Z) : float :=
  if z <? 0 then PrimFloat.opp (PrimFloat.of_uint63 (Uint63.of_Z (- z)))
  else PrimFloat.of_uint63 (Uint63.of_Z z).

(** [0.5 * (totalTicks - startBurst + burstTime)]: the subtraction is on
    [int], its result is converted and added to the [double]. *)
Definition predictedBurst (ticks start : Z) (previous : float) : float :=
  PrimFloat.mul 0.5%float (PrimFloat.add (double_of_int (ticks - start)) previous).

(** ** The scheduler *)

(** The four macros the scheduler is compiled with; their definitions are in
    a header that is not part of the sources at hand, so they are taken as
    parameters. *)
Record Config := mkConfig {
  SJF_SCHD_THRESHHOLD : Z;
  PRI_SCHD_THRESHHOLD : Z;
  AGING_TICKS : Z;
  PRIORITY_AGING : Z
}.

Section Scheduler.

Variable cfg : Config.

(** [Scheduler::ReadyToRun] *)
Definition ReadyToRun (thread : ThreadPtr) : M unit :=
  ASSERT interruptsOff ;;
  setStatus thread READY ;;
  now <- gets totalTicks ;;
  setStartReadyTime thread now ;;
  now0 <- gets totalTicks ;;
  emit (EvTickThread now0 thread) ;;
  pri <- getPriority thread ;;
  (if pri >=? SJF_SCHD_THRESHHOLD cfg then List_Append QSJF thread
   else if pri >=? PRI_SCHD_THRESHHOLD cfg then List_Append QRR thread
   else List_Append QPri thread) ;;
  now' <- gets totalTicks ;;
  emit (EvProcessReady thread now').

(** [Scheduler::processMoving]; the three iterators are constructed before
    the first loop runs. *)
Definition processMoving : M unit :=
  iterRR <- ListIterator QRR ;;
  iterPri <- ListIterator QPri ;;
  iterSJF <- ListIterator QSJF ;;
  forEach iterSJF (fun thread =>
    pri <- getPriority thread ;;
    if pri <? SJF_SCHD_THRESHHOLD cfg
    then List_Remove QSJF thread ;; ReadyToRun thread
    else ret tt) ;;
  forEach iterRR (fun thread =>
    pri <- getPriority thread ;;
    if (pri <? PRI_SCHD_THRESHHOLD cfg) || (pri >=? SJF_SCHD_THRESHHOLD cfg)
    then List_Remove QRR thread ;; ReadyToRun thread
    else ret tt) ;;
  forEach iterPri (fun thread =>
    pri <- getPriority thread ;;
    if pri >=? PRI_SCHD_THRESHHOLD cfg
    then List_Remove QPri thread ;; ReadyToRun thread
    else ret tt).

(** The body of the loop of [Scheduler::aging]. *)
Definition agingBody (list : Queue) (thread : ThreadPtr) : M unit :=
  now <- gets totalTicks ;;
  since <- getStartReadyTime thread ;;
  let clocks_interval := now - since in
  if clocks_interval >=? AGING_TICKS cfg then
    pri <- getPriority thread ;;
    setPriority thread (PRIORITY_AGING cfg + pri) ;;
    now' <- gets totalTicks ;;
    setStartReadyTime thread now' ;;
    List_Remove list thread ;;
    SortedList_Insert list thread
  else ret tt.

(** [Scheduler::aging] *)
Definition aging (readylist : Queue) : M unit :=
  list <- dynamic_cast_SortedList readylist ;;
  iter <- ListIterator list ;;
  forEach iter (agingBody list) ;;
  processMoving.

(** The selection of [Scheduler::FindNextToRun]: strict band priority. *)
Definition selectNext : M (option ThreadPtr) :=
  emptySJF <- List_IsEmpty QSJF ;;
  if negb emptySJF then
    t <- List_RemoveFront QSJF ;; ret (Some t)
  else
    emptyRR <- List_IsEmpty QRR ;;
    if negb emptyRR then
      t <- List_RemoveFront QRR ;; ret (Some t)
    else
      emptyPri <- List_IsEmpty QPri ;;
      if negb emptyPri then
        t <- List_RemoveFront QPri ;; ret (Some t)
      else ret None.

(** [Scheduler::FindNextToRun]; [None] is the NULL pointer. *)
Definition FindNextToRun : M (option ThreadPtr) :=
  ASSERT interruptsOff ;;
  aging QPri ;;
  selectNext.

End Scheduler.

(** [Scheduler::Run] up to and including the call of [SWITCH]. *)
Definition Run (nextThread : ThreadPtr) (finishing : bool) : M unit :=
  oldThread <- gets currentThread ;;
  if Nat.eqb oldThread nextThread then ret tt
  else
    ASSERT interruptsOff ;;
    (if finishing then
       ASSERT (fun st => match toBeDestroyed st with None => true | Some _ => false end) ;;
       modify (withToBeDestroyed (Some oldThread))
     else ret tt) ;;
    hasSpace <- gets (fun st => space (threads st oldThread)) ;;
    (if hasSpace then
       emit (EvSaveUserState oldThread) ;; emit (EvSpaceSaveState oldThread)
     else ret tt) ;;
    CheckOverflow oldThread ;;
    now <- gets totalTicks ;;
    start <- getStartBurst oldThread ;;
    previous <- getBurstTime oldThread ;;
    setBurstTime oldThread (predictedBurst now start previous) ;;
    now' <- gets totalTicks ;;
    setStartBurstTime nextThread now' ;;
    modify (withCurrentThread nextThread) ;;
    setStatus nextThread RUNNING ;;
    now'' <- gets totalTicks ;;
    emit (EvProcessRunning nextThread now'') ;;
    emit (EvSWITCH oldThread nextThread).

(** [Scheduler::CheckToBeDestroyed] *)
Definition CheckToBeDestroyed : M unit :=
  d <- gets toBeDestroyed ;;
  match d with
  | Some t => emit (EvDelete t) ;; modify (withToBeDestroyed None)
  | None => ret tt
  end.

(** The rest of [Scheduler::Run]: what [oldThread] executes when [SWITCH]
    returns to it. *)
Definition Run_resumed (oldThread : ThreadPtr) : M unit :=
  ASSERT interruptsOff ;;
  CheckToBeDestroyed ;;
  hasSpace <- gets (fun st => space (threads st oldThread)) ;;
  if hasSpace then
    emit (EvRestoreUserState oldThread) ;; emit (EvSpaceRestoreState oldThread)
  else ret tt.

(** ** Properties of states *)

(** All references held by the ready lists. *)
Definition allReady (st : state) : list ThreadPtr :=
  readySJFList st ++ readyRRList st ++ readyPriorityList st.

(** The band of priorities a list is meant to hold. *)
Definition inBand (cfg : Config) (q : Queue) (p : Z) : Prop :=
  match q with
  | QSJF => SJF_SCHD_THRESHHOLD cfg <= p
  | QRR => PRI_SCHD_THRESHHOLD cfg <= p < SJF_SCHD_THRESHHOLD cfg
  | QPri => p < PRI_SCHD_THRESHHOLD cfg
  end.

(** The partition of the ready threads: no thread is referenced twice by
    the ready lists, a thread on a list has the status [READY], and its
    priority lies in the band of that list. *)
Record Partition (cfg : Config) (st : state) : Prop := mkPartition {
  part_once : NoDup (allReady st);
  part_ready : forall q t, In t (getList q st) -> status (threads st t) = READY;
  part_band : forall q t, In t (getList q st) -> inBand cfg q (priority (threads st t))
}.

(** What the rest of the kernel may do between two calls of the scheduler:
    advance the clock, change the interrupt level, switch threads and write
    to threads that are on no ready list (the running thread changing its
    own priority, a thread blocking).  The ready lists and the threads they
    hold stay as they are. *)
Definition kernelStep (st st' : state) : Prop :=
  (forall q, getList q st' = getList q st) /\
  (forall t, In t (allReady st) -> threads st' t = threads st t).

(** The states a kernel reaches when it calls the scheduler by its protocol:
    a thread handed to [ReadyToRun], or dispatched by [Run], is on no ready
    list. *)
Inductive reachable (cfg : Config) : state -> Prop :=
| reach_init st :
    allReady st = [] -> reachable cfg st
| reach_kernel st st' :
    reachable cfg st -> kernelStep st st' -> reachable cfg st'
| reach_ReadyToRun st thread st' :
    reachable cfg st -> ~ In thread (allReady st) ->
    ReadyToRun cfg thread st = Ok tt st' -> reachable cfg st'
| reach_processMoving st st' :
    reachable cfg st -> processMoving cfg st = Ok tt st' -> reachable cfg st'
| reach_aging st st' :
    reachable cfg st -> aging cfg QPri st = Ok tt st' -> reachable cfg st'
| reach_FindNextToRun st r st' :
    reachable cfg st -> FindNextToRun cfg st = Ok r st' -> reachable cfg st'
| reach_Run st nextThread finishing st' :
    reachable cfg st -> ~ In nextThread (allReady st) ->
    Run nextThread finishing st = Ok tt st' -> reachable cfg st'
| reach_Run_resumed st oldThread st' :
    reachable cfg st -> Run_resumed oldThread st = Ok tt st' -> reachable cfg st'.

(** Descending priority, the order of the Priority queue. *)
Definition byPriority (th : ThreadPtr -> Thread) (x y : ThreadPtr) : Prop :=
  priority (th y) <= priority (th x).

(** Ascending predicted burst, the order of the SJF queue. *)
Definition byBurst (th : ThreadPtr -> Thread) (x y : ThreadPtr) : Prop :=
  PrimFloat.leb (burstTime (th x)) (burstTime (th y)) = true.

(** The queue [ReadyToRun] chooses for a priority. *)
Definition bandOf (cfg : Config) (p : Z) : Queue :=
  if p >=? SJF_SCHD_THRESHHOLD cfg then QSJF
  else if p >=? PRI_SCHD_THRESHHOLD cfg then QRR
  else QPri.

(** [ReadyToRun] for each thread of a list in turn. *)
Fixpoint readyAll (cfg : Config) (ts : list ThreadPtr) : M unit :=
  match ts with
  | [] => ret tt
  | t :: rest => ReadyToRun cfg t ;; readyAll cfg rest
  end.


(** The state [ReadyToRun] returns in when interrupts are off. *)
Definition readied (cfg : Config) (thread : ThreadPtr) (st : state) : state :=
  let st' := withEvent (EvTickThread (totalTicks st) thread)
               (updThread thread (withStartReadyTime (totalTicks st))
                  (updThread thread (withStatus READY) st)) in
  let q := bandOf cfg (priority (threads st thread)) in
  withEvent (EvProcessReady thread (totalTicks st))
    (setList q (appended q (threads st') thread (getList q st)) st').

(** The test each loop of [processMoving] makes on the priority of the
    thread at hand. *)
Definition outOfBand (cfg : Config) (q : Queue) (pri : Z) : bool :=
  match q with
  | QSJF => pri <? SJF_SCHD_THRESHHOLD cfg
  | QRR => (pri <? PRI_SCHD_THRESHHOLD cfg) || (pri >=? SJF_SCHD_THRESHHOLD cfg)
  | QPri => pri >=? PRI_SCHD_THRESHHOLD cfg
  end.

(** The body of the loop of [processMoving] over the list [q]. *)
Definition requalifyBody (cfg : Config) (q : Queue) (thread : ThreadPtr) : M unit :=
  pri <- getPriority thread ;;
  if outOfBand cfg q pri
  then List_Remove q thread ;; ReadyToRun cfg thread
  else ret tt.

(** The state after [q->Remove(thread); ReadyToRun(thread)]. *)
Definition moved (cfg : Config) (q : Queue) (thread : ThreadPtr) (st : state) : state :=
  readied cfg thread (setList q (Remove thread (getList q st)) st).

(** What the aging loop does to a thread of the list it walks. *)
Definition agedThread (cfg : Config) (now : Z) (th : Thread) : Thread :=
  if now - startReadyTime th >=? AGING_TICKS cfg
  then withStartReadyTime now (withPriority (PRIORITY_AGING cfg + priority th) th)
  else th.

(** The state after the body of the aging loop found the thread due. *)
Definition boosted (cfg : Config) (q : Queue) (cmp : (ThreadPtr -> Thread) -> ThreadPtr -> ThreadPtr -> Z)
    (thread : ThreadPtr) (st : state) : state :=
  let st1 := updThread thread (withStartReadyTime (totalTicks st))
               (updThread thread
                  (withPriority (PRIORITY_AGING cfg + priority (threads st thread))) st) in
  let st2 := setList q (Remove thread (getList q st1)) st1 in
  setList q (Insert (cmp (threads st2)) thread (getList q st2)) st2.

(** The entries an iterator has still to visit, per list. *)
Definition remaining (rem : Queue -> list ThreadPtr) (q : Queue)
    (l : list ThreadPtr) : Queue -> list ThreadPtr :=
  fun q' => if Queue_eqb q' q then l else rem q'.

(** What holds while [processMoving], started in [st0], is under way: [rem]
    gives the entries of each list that are still to be visited. *)
Record Sweep (cfg : Config) (st0 : state) (rem : Queue -> list ThreadPtr)
    (st : state) : Prop := mkSweep {
  sw_level : level st = IntOff;
  sw_ticks : totalTicks st = totalTicks st0;
  sw_perm : Permutation (allReady st) (allReady st0);
  sw_rem_once : forall q, NoDup (rem q);
  sw_rem_in : forall q t, In t (rem q) -> In t (getList q st);
  sw_rem_orig : forall q t, In t (rem q) -> In t (getList q st0);
  sw_band : forall q t, In t (getList q st) ->
            In t (rem q) \/ inBand cfg q (priority (threads st t));
  sw_touch : forall x,
      threads st x = threads st0 x \/
      threads st x = withStartReadyTime (totalTicks st0) (withStatus READY (threads st0 x));
  sw_frame : forall x,
      (forall q, In x (getList q st0) -> inBand cfg q (priority (threads st0 x))) ->
      threads st x = threads st0 x;
  sw_sorted : StronglySorted (byPriority (threads st0)) (readyPriorityList st0) ->
              StronglySorted (byPriority (threads st)) (readyPriorityList st)
}.

(** What holds while the loop of [aging] over the Priority queue, started in
    [st0], is under way: [rem] are the entries still to be visited. *)
Record Aging (cfg : Config) (st0 : state) (rem : list ThreadPtr)
    (st : state) : Prop := mkAging {
  ag_level : level st = level st0;
  ag_ticks : totalTicks st = totalTicks st0;
  ag_SJF : readySJFList st = readySJFList st0;
  ag_RR : readyRRList st = readyRRList st0;
  ag_perm : Permutation (readyPriorityList st) (readyPriorityList st0);
  ag_rem_once : NoDup rem;
  ag_rem_in : forall t, In t rem -> In t (readyPriorityList st0);
  ag_done : forall x, In x (readyPriorityList st0) -> ~ In x rem ->
            threads st x = agedThread cfg (totalTicks st0) (threads st0 x);
  ag_todo : forall x, ~ In x (readyPriorityList st0) \/ In x rem ->
            threads st x = threads st0 x;
  ag_sorted : StronglySorted (byPriority (threads st0)) (readyPriorityList st0) ->
              StronglySorted (byPriority (threads st)) (readyPriorityList st)
}.



(** ** A sample kernel

    Sample values for the four macros, and a handful of threads: thread 0
    is running; threads 1, 2 and 3 are in the SJF band with predicted bursts
    5, 2 and 8; thread 4 is in the Round-Robin band; threads 5 and 6 are in
    the Priority band. *)
Definition sampleConfig : Config := mkConfig 100 50 1500 10.

Definition sampleThreads (t : ThreadPtr) : Thread :=
  match t with
  | 0%nat => mkThread RUNNING 0 0%float 0 0 false true
  | 1%nat => mkThread BLOCKED 120 5%float 0 0 false true
  | 2%nat => mkThread BLOCKED 130 2%float 0 0 false true
  | 3%nat => mkThread BLOCKED 110 8%float 0 0 false true
  | 4%nat => mkThread BLOCKED 60 1%float 0 0 true true
  | 5%nat => mkThread BLOCKED 45 3%float 0 0 false true
  | _ => mkThread NEW 20 0%float 0 0 false true
  end.

(** A freshly constructed scheduler at tick 0, interrupts off, thread 0
    running. *)
Definition sampleBoot : state :=
  mkState sampleThreads [] [] [] None 0%nat 0 IntOff [].

(** The same kernel with interrupts enabled. *)
Definition sampleOn : state :=
  mkState sampleThreads [] [] [] None 0%nat 0 IntOn [].

(** Threads 5 and 6 have been made ready at tick 0. *)
Definition sampleWaiting : state :=
  stateOf ((ReadyToRun sampleConfig 5%nat ;; ReadyToRun sampleConfig 6%nat) sampleBoot).

(** ... and 2000 ticks have passed since. *)
Definition sampleLater : state :=
  mkState (threads sampleWaiting) (readyRRList sampleWaiting)
    (readyPriorityList sampleWaiting) (readySJFList sampleWaiting)
    (toBeDestroyed sampleWaiting) (currentThread sampleWaiting) 2000
    (level sampleWaiting) (trace sampleWaiting).

(** The state after the call of [FindNextToRun] in [sampleLater]. *)
Definition sampleSelected : state := stateOf (FindNextToRun sampleConfig sampleLater).

(** Thread 4 is on the Round-Robin list. *)
Definition sampleQueued : state :=
  stateOf (ReadyToRun sampleConfig 4%nat sampleBoot).

(** ** Further definitions *)

(** [Scheduler::Scheduler]: three empty lists, nothing to destroy.  The
    kernel the scheduler belongs to is as it was. *)
Definition Scheduler_Scheduler : M unit :=
  modify (fun st => mkState (threads st) [] [] [] None (currentThread st)
                      (totalTicks st) (level st) (trace st)).

(** What a call of [aging] or [FindNextToRun] leaves alone: the kernel's
    current thread, clock and interrupt level, the destruction slot, and of
    every thread the burst estimate, the burst start, the address space and
    the stack. *)
Definition schedFrame (s s' : state) : Prop :=
  currentThread s' = currentThread s /\
  toBeDestroyed s' = toBeDestroyed s /\
  totalTicks s' = totalTicks s /\
  level s' = level s /\
  forall x, burstTime (threads s' x) = burstTime (threads s x) /\
            startBurst (threads s' x) = startBurst (threads s x) /\
            space (threads s' x) = space (threads s x) /\
            stackIntact (threads s' x) = stackIntact (threads s x).

(** What holds while the last loop of [processMoving], the one over the
    Priority list, is under way, when it started in [sA] with [rest] still
    to visit: the Round-Robin list has only grown at its end, the SJF list
    has only taken threads of the Priority list, and no burst estimate has
    changed. *)
Record Promotion (sA : state) (rest : list ThreadPtr) (s : state) : Prop :=
  mkPromotion {
  pr_level : level s = IntOff;
  pr_rest : forall t, In t rest -> In t (readyPriorityList sA);
  pr_RR : exists extra, readyRRList s = readyRRList sA ++ extra /\
                        forall t, In t extra -> In t (readyPriorityList sA);
  pr_SJF_in : forall t, In t (readySJFList s) ->
              In t (readySJFList sA) \/ In t (readyPriorityList sA);
  pr_burst : forall x, burstTime (threads s x) = burstTime (threads sA x);
  pr_SJF_sorted :
    (forall t, In t (readySJFList sA ++ readyPriorityList sA) ->
       PrimFloat.is_nan (burstTime (threads sA t)) = false) ->
    StronglySorted (byBurst (threads sA)) (readySJFList sA) ->
    StronglySorted (byBurst (threads s)) (readySJFList s)
}.

(** Thread 1, of the SJF band, sits on the Priority list and thread 5, of
    the Priority band, on the SJF list; thread 4 is where it belongs. *)
Definition sampleMisplaced : state :=
  mkState sampleThreads [4%nat] [1%nat] [5%nat] None 0%nat 0 IntOff [].

(** The same lists with interrupts enabled. *)
Definition sampleMisplacedOn : state :=
  mkState sampleThreads [4%nat] [1%nat] [5%nat] None 0%nat 0 IntOn [].

(** Thread 4 on the Round-Robin list, interrupts enabled. *)
Definition sampleQueuedOn : state :=
  mkState sampleThreads [4%nat] [] [] None 0%nat 0 IntOn [].

(** Thread 0 is running and finishing while thread 9 still waits to be
    destroyed. *)
Definition sampleDoubleFinish : state :=
  mkState sampleThreads [] [] [] (Some 9%nat) 0%nat 0 IntOff [].

(** Thread 7, whose stack has overflowed, is running; it owns an address
    space. *)
Definition sampleOverflow : state :=
  mkState (fun t => match t with
                    | 7%nat => mkThread RUNNING 0 0%float 0 0 true false
                    | _ => sampleThreads t
                    end)
    [] [] [] None 7%nat 0 IntOff [].

(** Thread 1 (burst estimate 5) is running since tick 0; at tick 100 thread
    3 (burst estimate 8) and then thread 1 itself have been made ready, so
    the SJF list holds thread 1 in front of thread 3. *)
Definition sampleYield : state :=
  stateOf ((ReadyToRun sampleConfig 3%nat ;; ReadyToRun sampleConfig 1%nat)
             (mkState sampleThreads [] [] [] None 1%nat 100 IntOff [])).

(** Macros with a boost large enough to carry a thread from the Priority
    band into the SJF band. *)
Definition sampleBigBoost : Config := mkConfig 100 50 1500 60.

(** Threads 1, 2 and 5 were made ready at tick 0, the clock is at 2000:
    threads 2 and 1 (burst estimates 2 and 5) are on the SJF list, thread 5
    (burst estimate 3) has waited on the Priority list. *)
Definition samplePromote : state :=
  let s := stateOf (readyAll sampleBigBoost [1; 2; 5]%nat sampleBoot) in
  mkState (threads s) (readyRRList s) (readyPriorityList s) (readySJFList s)
    (toBeDestroyed s) (currentThread s) 2000 (level s) (trace s).

(** * Proofs *)

(** [Pos.compare] as the comparison of binary64 numbers unfolds it. *)
Ltac fold_Pos_compare :=
  repeat match goal with
  | |- context [PosDef.Pos.compare_cont Eq ?a ?b] =>
      change (PosDef.Pos.compare_cont Eq a b) with (Pos.compare a b)
  end.


(** ** Lists *)

Lemma Insert_perm cmp x l : Permutation (Insert cmp x l) (x :: l).
Proof.
  induction l as [|y l IH]; simpl.
  - apply Permutation_refl.
  - destruct (cmp x y <? 0).
    + apply Permutation_refl.
    + apply perm_trans with (y :: x :: l).
      * apply perm_skip, IH.
      * apply perm_swap.
Qed.

Lemma appended_perm q th x l : Permutation (appended q th x l) (x :: l).
Proof.
  unfold appended. destruct (comparator q th).
  - apply Insert_perm.
  - apply Permutation_sym, Permutation_cons_append.
Qed.

Lemma Remove_perm x l : In x l -> Permutation (x :: Remove x l) l.
Proof.
  induction l as [|y l IH]; simpl; [tauto|].
  intros H. destruct (Nat.eqb x y) eqn:E.
  - apply Nat.eqb_eq in E. subst. apply Permutation_refl.
  - apply Nat.eqb_neq in E. destruct H as [H|H]; [congruence|].
    apply perm_trans with (y :: x :: Remove x l).
    + apply perm_swap.
    + apply perm_skip, IH, H.
Qed.

Lemma Remove_In x y l : In y (Remove x l) -> In y l.
Proof.
  induction l as [|z l IH]; simpl; [tauto|].
  destruct (Nat.eqb x z); simpl; intuition.
Qed.

Lemma Remove_NoDup_notin x l : NoDup l -> ~ In x (Remove x l).
Proof.
  induction 1 as [|y l Hy Hl IH]; simpl; [tauto|].
  destruct (Nat.eqb x y) eqn:E.
  - apply Nat.eqb_eq in E. subst. exact Hy.
  - apply Nat.eqb_neq in E. simpl. intros [H|H]; [congruence|tauto].
Qed.

Lemma Remove_In_other x y l : In y l -> y <> x -> In y (Remove x l).
Proof.
  induction l as [|z l IH]; simpl; [tauto|].
  intros H Hne. destruct (Nat.eqb x z) eqn:E.
  - apply Nat.eqb_eq in E. subst. destruct H; [congruence|assumption].
  - simpl. destruct H; [left; assumption|right; auto].
Qed.

(** ** Reading the state after the elementary writes *)

Lemma getList_setList q q' l st :
  getList q (setList q' l st) = if Queue_eqb q q' then l else getList q st.
Proof. destruct q, q'; reflexivity. Qed.

Lemma Queue_eqb_eq a b : Queue_eqb a b = true <-> a = b.
Proof. destruct a, b; simpl; split; congruence. Qed.

Lemma Queue_eqb_refl a : Queue_eqb a a = true.
Proof. destruct a; reflexivity. Qed.

Lemma Queue_eqb_neq a b : Queue_eqb a b = false <-> a <> b.
Proof. destruct a, b; simpl; split; congruence. Qed.

(** ** [ReadyToRun] *)

Lemma ReadyToRun_off cfg thread st :
  level st = IntOff -> ReadyToRun cfg thread st = Ok tt (readied cfg thread st).
Proof.
  intros H. unfold ReadyToRun, readied, bandOf, bind, ASSERT, interruptsOff.
  rewrite H. cbn.
  rewrite Nat.eqb_refl. cbn.
  destruct (priority (threads st thread) >=? SJF_SCHD_THRESHHOLD cfg);
    [reflexivity|].
  destruct (priority (threads st thread) >=? PRI_SCHD_THRESHHOLD cfg);
    reflexivity.
Qed.

Lemma ReadyToRun_on cfg thread st :
  level st = IntOn -> ReadyToRun cfg thread st = Stop AssertionFailed st.
Proof.
  intros H. unfold ReadyToRun, bind, ASSERT, interruptsOff. rewrite H. reflexivity.
Qed.

Lemma readied_threads cfg thread st x :
  threads (readied cfg thread st) x =
  if Nat.eqb x thread
  then withStartReadyTime (totalTicks st) (withStatus READY (threads st x))
  else threads st x.
Proof.
  unfold readied.
  destruct (bandOf cfg (priority (threads st thread))); cbn;
    destruct (Nat.eqb x thread); reflexivity.
Qed.

Lemma readied_getList cfg thread st q :
  getList q (readied cfg thread st) =
  if Queue_eqb q (bandOf cfg (priority (threads st thread)))
  then appended q (threads (readied cfg thread st)) thread (getList q st)
  else getList q st.
Proof.
  unfold readied.
  destruct (bandOf cfg (priority (threads st thread))), q; reflexivity.
Qed.

Lemma readied_level cfg thread st : level (readied cfg thread st) = level st.
Proof.
  unfold readied. destruct (bandOf cfg (priority (threads st thread))); reflexivity.
Qed.

Lemma readied_totalTicks cfg thread st :
  totalTicks (readied cfg thread st) = totalTicks st.
Proof.
  unfold readied. destruct (bandOf cfg (priority (threads st thread))); reflexivity.
Qed.

Lemma readied_priority cfg thread st x :
  priority (threads (readied cfg thread st) x) = priority (threads st x).
Proof.
  rewrite readied_threads. destruct (Nat.eqb x thread); reflexivity.
Qed.

Lemma readied_allReady cfg thread st :
  Permutation (allReady (readied cfg thread st)) (thread :: allReady st).
Proof.
  unfold allReady.
  change (readySJFList (readied cfg thread st)) with (getList QSJF (readied cfg thread st)).
  change (readyRRList (readied cfg thread st)) with (getList QRR (readied cfg thread st)).
  change (readyPriorityList (readied cfg thread st)) with (getList QPri (readied cfg thread st)).
  rewrite !readied_getList.
  destruct (bandOf cfg (priority (threads st thread))); simpl.
  - (* Round-Robin *)
    rewrite (appended_perm QRR). simpl.
    apply Permutation_sym, Permutation_middle.
  - rewrite (appended_perm QPri).
    apply Permutation_sym.
    rewrite !app_assoc. apply Permutation_middle.
  - rewrite (appended_perm QSJF). apply Permutation_refl.
Qed.

(** ** [Run] *)

Lemma Run_same_thread finishing st :
  Run (currentThread st) finishing st = Ok tt st.
Proof.
  unfold Run, bind, gets. rewrite Nat.eqb_refl. reflexivity.
Qed.

Lemma Run_on nextThread finishing st :
  nextThread <> currentThread st -> level st = IntOn ->
  Run nextThread finishing st = Stop AssertionFailed st.
Proof.
  intros Hne Hl. unfold Run, bind, gets.
  destruct (Nat.eqb (currentThread st) nextThread) eqn:E.
  - apply Nat.eqb_eq in E. congruence.
  - unfold ASSERT, interruptsOff. rewrite Hl. reflexivity.
Qed.

Lemma Run_dispatch nextThread finishing st :
  nextThread <> currentThread st ->
  level st = IntOff ->
  (finishing = true -> toBeDestroyed st = None) ->
  stackIntact (threads st (currentThread st)) = true ->
  exists st',
    Run nextThread finishing st = Ok tt st' /\
    burstTime (threads st' (currentThread st)) =
      PrimFloat.mul 0.5%float
        (PrimFloat.add
           (double_of_int (totalTicks st - startBurst (threads st (currentThread st))))
           (burstTime (threads st (currentThread st)))) /\
    startBurst (threads st' nextThread) = totalTicks st /\
    status (threads st' nextThread) = RUNNING /\
    currentThread st' = nextThread /\
    (forall q, getList q st' = getList q st) /\
    (forall x, priority (threads st' x) = priority (threads st x)) /\
    (forall x, x <> nextThread -> status (threads st' x) = status (threads st x)) /\
    toBeDestroyed st' = (if finishing then Some (currentThread st) else toBeDestroyed st).
Proof.
  intros Hne Hl Hfin Hstack. unfold Run, bind, gets.
  destruct (Nat.eqb (currentThread st) nextThread) eqn:E.
  { apply Nat.eqb_eq in E. congruence. }
  assert (E' : Nat.eqb nextThread (currentThread st) = false).
  { rewrite Nat.eqb_sym. exact E. }
  unfold ASSERT, interruptsOff. rewrite Hl.
  destruct finishing.
  - rewrite (Hfin eq_refl). cbn.
    destruct (space (threads st (currentThread st))); cbn;
      unfold ASSERT; cbn; rewrite Hstack; cbn;
      (eexists; split; [reflexivity|]); cbn;
      rewrite ?Nat.eqb_refl, ?E, ?E'; cbn;
      (repeat split; try reflexivity; try (intros q; destruct q; reflexivity));
      intros x; try intros Hx;
      destruct (Nat.eqb x nextThread) eqn:E1;
      destruct (Nat.eqb x (currentThread st)) eqn:E2; try reflexivity;
      apply Nat.eqb_eq in E1; congruence.
  - cbn.
    destruct (space (threads st (currentThread st))); cbn;
      unfold ASSERT; cbn; rewrite Hstack; cbn;
      (eexists; split; [reflexivity|]); cbn;
      rewrite ?Nat.eqb_refl, ?E, ?E'; cbn;
      (repeat split; try reflexivity; try (intros q; destruct q; reflexivity));
      intros x; try intros Hx;
      destruct (Nat.eqb x nextThread) eqn:E1;
      destruct (Nat.eqb x (currentThread st)) eqn:E2; try reflexivity;
      apply Nat.eqb_eq in E1; congruence.
Qed.

(** ** Loops *)

Lemma forEach_inv (I : list ThreadPtr -> state -> Prop) (body : ThreadPtr -> M unit) :
  (forall t rest st, I (t :: rest) st ->
     exists st', body t st = Ok tt st' /\ I rest st') ->
  forall items st, I items st ->
    exists st', forEach items body st = Ok tt st' /\ I [] st'.
Proof.
  intros Hstep. induction items as [|t rest IH]; intros st HI; simpl.
  - exists st. split; [reflexivity | exact HI].
  - destruct (Hstep t rest st HI) as (st1 & E1 & H1).
    destruct (IH st1 H1) as (st2 & E2 & H2).
    exists st2. split; [|exact H2].
    unfold bind. rewrite E1. exact E2.
Qed.

Lemma forEach_noop (body : ThreadPtr -> M unit) items st :
  (forall t, In t items -> body t st = Ok tt st) ->
  forEach items body st = Ok tt st.
Proof.
  induction items as [|t rest IH]; intros H; simpl.
  - reflexivity.
  - unfold bind. rewrite (H t (or_introl eq_refl)).
    apply IH. intros x Hx. apply H. right. exact Hx.
Qed.

(** ** Membership in the three lists *)

Lemma In_allReady st t :
  In t (allReady st) <-> exists q, In t (getList q st).
Proof.
  unfold allReady. rewrite !in_app_iff. split.
  - intros [H|[H|H]]; [exists QSJF | exists QRR | exists QPri]; exact H.
  - intros [[| |] H]; simpl in H; tauto.
Qed.

Lemma In_getList_allReady q st t : In t (getList q st) -> In t (allReady st).
Proof. intros H. apply In_allReady. exists q. exact H. Qed.

Lemma NoDup_getList q st : NoDup (allReady st) -> NoDup (getList q st).
Proof.
  unfold allReady. intros H.
  destruct q; simpl.
  - apply NoDup_app_remove_l in H. apply NoDup_app_remove_r in H. exact H.
  - apply NoDup_app_remove_l in H. apply NoDup_app_remove_l in H. exact H.
  - apply NoDup_app_remove_r in H. exact H.
Qed.

Lemma NoDup_two_lists q q' st t :
  NoDup (allReady st) -> In t (getList q st) -> In t (getList q' st) -> q = q'.
Proof.
  unfold allReady. intros H H1 H2.
  assert (D1 : forall x, In x (readySJFList st) ->
                         ~ In x (readyRRList st ++ readyPriorityList st)).
  { intros x Hx Hy. revert H. clear - Hx Hy.
    induction (readySJFList st) as [|y l IH]; simpl in *; [tauto|].
    intros H. inversion H as [|? ? Hn Hd]; subst.
    destruct Hx as [->|Hx].
    - apply Hn. apply in_or_app. right. exact Hy.
    - apply IH; assumption. }
  assert (D2 : forall x, In x (readyRRList st) -> ~ In x (readyPriorityList st)).
  { apply NoDup_app_remove_l in H. intros x Hx Hy. revert H. clear - Hx Hy.
    induction (readyRRList st) as [|y l IH]; simpl in *; [tauto|].
    intros H. inversion H as [|? ? Hn Hd]; subst.
    destruct Hx as [->|Hx].
    - apply Hn. apply in_or_app. right. exact Hy.
    - apply IH; assumption. }
  destruct q, q'; simpl in H1, H2; try reflexivity; exfalso.
  - exact (D2 t H1 H2).
  - apply (D1 t H2). apply in_or_app. left. exact H1.
  - exact (D2 t H2 H1).
  - apply (D1 t H2). apply in_or_app. right. exact H1.
  - apply (D1 t H1). apply in_or_app. left. exact H2.
  - apply (D1 t H1). apply in_or_app. right. exact H2.
Qed.

Lemma allReady_Remove q t st :
  In t (getList q st) ->
  Permutation (t :: allReady (setList q (Remove t (getList q st)) st)) (allReady st).
Proof.
  intros H. unfold allReady. destruct q; simpl in *.
  - (* Round-Robin *)
    apply perm_trans with
      (readySJFList st ++ (t :: Remove t (readyRRList st)) ++ readyPriorityList st).
    + simpl. apply Permutation_middle.
    + apply Permutation_app_head, Permutation_app_tail, Remove_perm, H.
  - apply perm_trans with
      (readySJFList st ++ readyRRList st ++ t :: Remove t (readyPriorityList st)).
    + rewrite !app_assoc. apply Permutation_middle.
    + apply Permutation_app_head, Permutation_app_head, Remove_perm, H.
  - change (Permutation
      ((t :: Remove t (readySJFList st)) ++ readyRRList st ++ readyPriorityList st)
      (readySJFList st ++ readyRRList st ++ readyPriorityList st)).
    apply Permutation_app_tail, Remove_perm, H.
Qed.

(** ** Order of the Priority queue *)

Lemma byPriority_ext th th' l :
  (forall x, In x l -> priority (th' x) = priority (th x)) ->
  StronglySorted (byPriority th) l -> StronglySorted (byPriority th') l.
Proof.
  intros Hext H. induction H as [|a l Hs IH Hall].
  - constructor.
  - constructor.
    + apply IH. intros x Hx. apply Hext. right. exact Hx.
    + rewrite Forall_forall in *. intros x Hx. unfold byPriority.
      rewrite (Hext a (or_introl eq_refl)), (Hext x (or_intror Hx)).
      apply Hall. exact Hx.
Qed.

Lemma Remove_sorted (R : ThreadPtr -> ThreadPtr -> Prop) x l :
  StronglySorted R l -> StronglySorted R (Remove x l).
Proof.
  induction 1 as [|a l Hs IH Hall]; simpl.
  - constructor.
  - destruct (Nat.eqb x a); [exact Hs|].
    constructor; [exact IH|].
    rewrite Forall_forall in *. intros y Hy. apply Hall.
    apply Remove_In with x. exact Hy.
Qed.

Lemma Insert_In cmp x y l : In y (Insert cmp x l) <-> y = x \/ In y l.
Proof.
  split.
  - intros H. apply (Permutation_in _ (Insert_perm cmp x l)) in H.
    simpl in H. intuition.
  - intros H. apply (Permutation_in _ (Permutation_sym (Insert_perm cmp x l))).
    simpl. intuition.
Qed.

Lemma Insert_sorted_priority th x l :
  StronglySorted (byPriority th) l ->
  StronglySorted (byPriority th) (Insert (compare_by_priority th) x l).
Proof.
  induction 1 as [|a l Hs IH Hall]; simpl.
  - repeat constructor.
  - unfold compare_by_priority at 1.
    destruct (priority (th a) <? priority (th x)) eqn:E1.
    + simpl. apply Z.ltb_lt in E1.
      constructor; [constructor; assumption|].
      constructor.
      * unfold byPriority. lia.
      * rewrite Forall_forall in *. intros y Hy. specialize (Hall y Hy).
        unfold byPriority in *. lia.
    + apply Z.ltb_ge in E1.
      assert (E : ((if priority (th x) <? priority (th a) then 1 else 0) <? 0) = false).
      { destruct (priority (th x) <? priority (th a)); reflexivity. }
      rewrite E. constructor; [exact IH|].
      rewrite Forall_forall in *. intros y Hy.
      apply Insert_In in Hy. destruct Hy as [->|Hy].
      * unfold byPriority. lia.
      * apply Hall. exact Hy.
Qed.

Lemma appended_sorted_priority th x l :
  StronglySorted (byPriority th) l ->
  StronglySorted (byPriority th) (appended QPri th x l).
Proof. apply Insert_sorted_priority. Qed.

(** ** Requalification *)

Section Requalification.

Variable cfg : Config.
Hypothesis thresholds : PRI_SCHD_THRESHHOLD cfg < SJF_SCHD_THRESHHOLD cfg.

Lemma outOfBand_false q p : outOfBand cfg q p = false <-> inBand cfg q p.
Proof.
  destruct q; simpl.
  - rewrite orb_false_iff, Z.ltb_ge, Z.geb_leb, Z.leb_gt. lia.
  - rewrite Z.geb_leb, Z.leb_gt. lia.
  - rewrite Z.ltb_ge. lia.
Qed.

Lemma outOfBand_true q p : outOfBand cfg q p = true <-> ~ inBand cfg q p.
Proof.
  rewrite <- outOfBand_false. destruct (outOfBand cfg q p); split; congruence.
Qed.

Lemma bandOf_inBand p : inBand cfg (bandOf cfg p) p.
Proof.
  unfold bandOf.
  destruct (p >=? SJF_SCHD_THRESHHOLD cfg) eqn:E1.
  - simpl. rewrite Z.geb_leb in E1. apply Z.leb_le in E1. exact E1.
  - rewrite Z.geb_leb in E1. apply Z.leb_gt in E1.
    destruct (p >=? PRI_SCHD_THRESHHOLD cfg) eqn:E2; simpl;
      rewrite Z.geb_leb in E2; [apply Z.leb_le in E2 | apply Z.leb_gt in E2]; lia.
Qed.

Lemma inBand_unique q q' p : inBand cfg q p -> inBand cfg q' p -> q = q'.
Proof. destruct q, q'; simpl; intros; try reflexivity; lia. Qed.

Lemma requalifyBody_off q t st :
  level st = IntOff ->
  requalifyBody cfg q t st =
  Ok tt (if outOfBand cfg q (priority (threads st t)) then moved cfg q t st else st).
Proof.
  intros Hl. unfold requalifyBody, bind, getPriority, gets.
  destruct (outOfBand cfg q (priority (threads st t))); [|reflexivity].
  unfold List_Remove, modify. rewrite ReadyToRun_off.
  - reflexivity.
  - destruct q; exact Hl.
Qed.

Lemma requalifyBody_inBand q t st :
  inBand cfg q (priority (threads st t)) -> requalifyBody cfg q t st = Ok tt st.
Proof.
  intros H. apply outOfBand_false in H.
  unfold requalifyBody, bind, getPriority, gets. rewrite H. reflexivity.
Qed.

Lemma setList_threads q l st : threads (setList q l st) = threads st.
Proof. destruct q; reflexivity. Qed.

Lemma setList_level q l st : level (setList q l st) = level st.
Proof. destruct q; reflexivity. Qed.

Lemma setList_totalTicks q l st : totalTicks (setList q l st) = totalTicks st.
Proof. destruct q; reflexivity. Qed.

Lemma moved_threads q t st x :
  threads (moved cfg q t st) x =
  if Nat.eqb x t
  then withStartReadyTime (totalTicks st) (withStatus READY (threads st x))
  else threads st x.
Proof.
  unfold moved. rewrite readied_threads, setList_threads, setList_totalTicks.
  reflexivity.
Qed.

Lemma moved_priority q t st x :
  priority (threads (moved cfg q t st) x) = priority (threads st x).
Proof. rewrite moved_threads. destruct (Nat.eqb x t); reflexivity. Qed.

Lemma moved_getList q t st q' :
  getList q' (moved cfg q t st) =
  let l := if Queue_eqb q' q then Remove t (getList q st) else getList q' st in
  if Queue_eqb q' (bandOf cfg (priority (threads st t)))
  then appended q' (threads (moved cfg q t st)) t l
  else l.
Proof.
  unfold moved. rewrite readied_getList, setList_threads, getList_setList.
  reflexivity.
Qed.

Lemma moved_allReady q t st :
  In t (getList q st) ->
  Permutation (allReady (moved cfg q t st)) (allReady st).
Proof.
  intros H. unfold moved.
  apply perm_trans with (t :: allReady (setList q (Remove t (getList q st)) st)).
  - apply readied_allReady.
  - apply allReady_Remove, H.
Qed.

Lemma Sweep_step st0 rem q t rest st :
  NoDup (allReady st0) ->
  Sweep cfg st0 rem st -> rem q = t :: rest ->
  exists st', requalifyBody cfg q t st = Ok tt st' /\
              Sweep cfg st0 (remaining rem q rest) st'.
Proof.
  intros Hnd0 S Hq.
  assert (Hnd : NoDup (allReady st)).
  { apply (Permutation_NoDup (Permutation_sym (sw_perm _ _ _ _ S))). exact Hnd0. }
  assert (Ht : In t (getList q st)).
  { apply (sw_rem_in _ _ _ _ S). rewrite Hq. left. reflexivity. }
  assert (Hrest : NoDup (t :: rest)).
  { rewrite <- Hq. apply (sw_rem_once _ _ _ _ S). }
  assert (Hprio : forall x, priority (threads st x) = priority (threads st0 x)).
  { intros x. destruct (sw_touch _ _ _ _ S x) as [E|E]; rewrite E; reflexivity. }
  rewrite (requalifyBody_off q t st (sw_level _ _ _ _ S)).
  eexists. split; [reflexivity|].
  destruct (outOfBand cfg q (priority (threads st t))) eqn:Eout.
  - (* the thread is taken off [q] and handed to ReadyToRun *)
    apply outOfBand_true in Eout.
    set (b := bandOf cfg (priority (threads st t))).
    assert (Hb : inBand cfg b (priority (threads st t))) by apply bandOf_inBand.
    assert (Hbq : Queue_eqb q b = false).
    { apply Queue_eqb_neq. intros ->. contradiction. }
    constructor.
    + unfold moved. rewrite readied_level, setList_level. apply (sw_level _ _ _ _ S).
    + unfold moved. rewrite readied_totalTicks, setList_totalTicks.
      apply (sw_ticks _ _ _ _ S).
    + apply perm_trans with (allReady st); [apply moved_allReady, Ht|].
      apply (sw_perm _ _ _ _ S).
    + intros q'. unfold remaining. destruct (Queue_eqb q' q).
      * inversion Hrest; assumption.
      * apply (sw_rem_once _ _ _ _ S).
    + intros q' x. unfold remaining. rewrite moved_getList. fold b. cbv zeta.
      destruct (Queue_eqb q' q) eqn:Eq.
      * apply Queue_eqb_eq in Eq. subst q'. rewrite Hbq.
        intros Hx. apply Remove_In_other.
        -- apply (sw_rem_in _ _ _ _ S). rewrite Hq. right. exact Hx.
        -- intros ->. inversion Hrest; contradiction.
      * intros Hx. apply (sw_rem_in _ _ _ _ S) in Hx.
        destruct (Queue_eqb q' b); [|exact Hx].
        apply (Permutation_in _ (Permutation_sym (appended_perm _ _ _ _))).
        right. exact Hx.
    + intros q' x. unfold remaining. destruct (Queue_eqb q' q) eqn:Eq.
      * apply Queue_eqb_eq in Eq. subst q'. intros Hx.
        apply (sw_rem_orig _ _ _ _ S). rewrite Hq. right. exact Hx.
      * apply (sw_rem_orig _ _ _ _ S).
    + intros q' x. rewrite moved_getList, moved_priority. fold b. cbv zeta.
      unfold remaining.
      destruct (Queue_eqb q' q) eqn:Eq.
      * apply Queue_eqb_eq in Eq. subst q'. rewrite Hbq. intros Hx.
        assert (Hx' : In x (getList q st)) by (apply Remove_In with t; exact Hx).
        assert (Hxt : x <> t).
        { intros ->. revert Hx. apply Remove_NoDup_notin, NoDup_getList, Hnd. }
        destruct (sw_band _ _ _ _ S q x Hx') as [Hr|Hr]; [|right; exact Hr].
        rewrite Hq in Hr. destruct Hr as [Hr|Hr]; [congruence|left; exact Hr].
      * destruct (Queue_eqb q' b) eqn:Eb.
        -- apply Queue_eqb_eq in Eb. subst q'. intros Hx.
           apply (Permutation_in _ (appended_perm _ _ _ _)) in Hx.
           destruct Hx as [<-|Hx]; [right; exact Hb|].
           apply (sw_band _ _ _ _ S). exact Hx.
        -- apply (sw_band _ _ _ _ S).
    + intros x. rewrite moved_threads, (sw_ticks _ _ _ _ S).
      destruct (Nat.eqb x t); [|apply (sw_touch _ _ _ _ S)].
      right. destruct (sw_touch _ _ _ _ S x) as [E|E]; rewrite E; reflexivity.
    + intros x Hx. rewrite moved_threads.
      destruct (Nat.eqb x t) eqn:Ext; [|apply (sw_frame _ _ _ _ S), Hx].
      apply Nat.eqb_eq in Ext. subst x. exfalso. apply Eout.
      rewrite Hprio. apply Hx. apply (sw_rem_orig _ _ _ _ S). rewrite Hq.
      left. reflexivity.
    + intros Hs0. specialize (sw_sorted _ _ _ _ S Hs0). intros Hs.
      change (readyPriorityList (moved cfg q t st)) with (getList QPri (moved cfg q t st)).
      rewrite moved_getList. fold b. cbv zeta.
      assert (Hs1 : StronglySorted (byPriority (threads (moved cfg q t st)))
                (if Queue_eqb QPri q then Remove t (getList q st) else getList QPri st)).
      { apply byPriority_ext with (threads st).
        - intros; apply moved_priority.
        - destruct (Queue_eqb QPri q) eqn:Eq.
          + apply Queue_eqb_eq in Eq. subst q. apply Remove_sorted, Hs.
          + exact Hs. }
      destruct (Queue_eqb QPri b); [|exact Hs1].
      apply appended_sorted_priority, Hs1.
  - (* the thread stays *)
    apply outOfBand_false in Eout.
    constructor; try apply S.
    + intros q'. unfold remaining. destruct (Queue_eqb q' q).
      * inversion Hrest; assumption.
      * apply (sw_rem_once _ _ _ _ S).
    + intros q' x. unfold remaining. destruct (Queue_eqb q' q) eqn:Eq.
      * apply Queue_eqb_eq in Eq. subst q'. intros Hx.
        apply (sw_rem_in _ _ _ _ S). rewrite Hq. right. exact Hx.
      * apply (sw_rem_in _ _ _ _ S).
    + intros q' x. unfold remaining. destruct (Queue_eqb q' q) eqn:Eq.
      * apply Queue_eqb_eq in Eq. subst q'. intros Hx.
        apply (sw_rem_orig _ _ _ _ S). rewrite Hq. right. exact Hx.
      * apply (sw_rem_orig _ _ _ _ S).
    + intros q' x Hx. unfold remaining. destruct (Queue_eqb q' q) eqn:Eq.
      * apply Queue_eqb_eq in Eq. subst q'.
        destruct (sw_band _ _ _ _ S q x Hx) as [Hr|Hr]; [|right; exact Hr].
        rewrite Hq in Hr. destruct Hr as [<-|Hr]; [right; exact Eout|left; exact Hr].
      * apply (sw_band _ _ _ _ S). exact Hx.
Qed.

Lemma Sweep_ext st0 rem rem' st :
  (forall q, rem q = rem' q) -> Sweep cfg st0 rem st -> Sweep cfg st0 rem' st.
Proof.
  intros E S. constructor; try apply S.
  - intros q. rewrite <- E. apply S.
  - intros q t. rewrite <- E. apply S.
  - intros q t. rewrite <- E. apply S.
  - intros q t. rewrite <- E. apply S.
Qed.

Lemma Sweep_start st0 :
  level st0 = IntOff -> NoDup (allReady st0) ->
  Sweep cfg st0 (fun q => getList q st0) st0.
Proof.
  intros Hl Hnd. constructor; auto.
  - intros q. apply NoDup_getList, Hnd.
Qed.

Lemma Sweep_loop st0 rem q st :
  NoDup (allReady st0) ->
  Sweep cfg st0 rem st ->
  exists st', forEach (rem q) (requalifyBody cfg q) st = Ok tt st' /\
              Sweep cfg st0 (remaining rem q []) st'.
Proof.
  intros Hnd S.
  apply (forEach_inv (fun items s => Sweep cfg st0 (remaining rem q items) s)).
  - intros t rest s Hs.
    destruct (Sweep_step st0 (remaining rem q (t :: rest)) q t rest s Hnd Hs)
      as (s' & E & Hs').
    + unfold remaining. rewrite Queue_eqb_refl. reflexivity.
    + exists s'. split; [exact E|].
      apply Sweep_ext with (2 := Hs'). intros q'. unfold remaining.
      destruct (Queue_eqb q' q); reflexivity.
  - apply Sweep_ext with (2 := S). intros q'. unfold remaining.
    destruct (Queue_eqb q' q) eqn:E; [|reflexivity].
    apply Queue_eqb_eq in E. subst. reflexivity.
Qed.

Lemma processMoving_loops st :
  processMoving cfg st =
  (forEach (getList QSJF st) (requalifyBody cfg QSJF) ;;
   forEach (getList QRR st) (requalifyBody cfg QRR) ;;
   forEach (getList QPri st) (requalifyBody cfg QPri)) st.
Proof. reflexivity. Qed.

(** [processMoving] returns, and when it does every list holds the threads
    of its band only. *)
Lemma processMoving_Sweep st0 :
  level st0 = IntOff -> NoDup (allReady st0) ->
  exists st, processMoving cfg st0 = Ok tt st /\ Sweep cfg st0 (fun _ => []) st.
Proof.
  intros Hl Hnd. rewrite processMoving_loops.
  pose proof (Sweep_start st0 Hl Hnd) as S0.
  destruct (Sweep_loop st0 _ QSJF st0 Hnd S0) as (st1 & E1 & S1).
  destruct (Sweep_loop st0 _ QRR st1 Hnd S1) as (st2 & E2 & S2).
  destruct (Sweep_loop st0 _ QPri st2 Hnd S2) as (st3 & E3 & S3).
  exists st3. split.
  - cbv beta iota delta [remaining Queue_eqb] in E1, E2, E3.
    unfold bind. rewrite E1, E2. exact E3.
  - apply Sweep_ext with (2 := S3). intros q. unfold remaining.
    destruct q; reflexivity.
Qed.

Lemma Sweep_priority st0 rem st x :
  Sweep cfg st0 rem st -> priority (threads st x) = priority (threads st0 x).
Proof.
  intros S. destruct (sw_touch _ _ _ _ S x) as [E|E]; rewrite E; reflexivity.
Qed.

Lemma Sweep_Partition st0 st :
  NoDup (allReady st0) ->
  (forall q t, In t (getList q st0) -> status (threads st0 t) = READY) ->
  Sweep cfg st0 (fun _ => []) st -> Partition cfg st.
Proof.
  intros Hnd Hready S. constructor.
  - apply (Permutation_NoDup (Permutation_sym (sw_perm _ _ _ _ S))). exact Hnd.
  - intros q t Ht.
    apply In_getList_allReady in Ht.
    apply (Permutation_in _ (sw_perm _ _ _ _ S)) in Ht.
    apply In_allReady in Ht. destruct Ht as (q0 & Ht).
    specialize (Hready q0 t Ht).
    destruct (sw_touch _ _ _ _ S t) as [E|E]; rewrite E; [exact Hready|reflexivity].
  - intros q t Ht. destruct (sw_band _ _ _ _ S q t Ht) as [[]|H]. exact H.
Qed.

(** A state in which every list holds the threads of its band is left as it
    is, whatever the interrupt level. *)
Lemma processMoving_noop st :
  (forall q t, In t (getList q st) -> inBand cfg q (priority (threads st t))) ->
  processMoving cfg st = Ok tt st.
Proof.
  intros H. rewrite processMoving_loops. unfold bind.
  rewrite forEach_noop; [rewrite forEach_noop; [apply forEach_noop|]|];
    intros t Ht; apply requalifyBody_inBand, H, Ht.
Qed.

End Requalification.

(** ** Aging *)

Section AgingLoop.

Variable cfg : Config.

Lemma agingBody_Pri t st :
  agingBody cfg QPri t st =
  Ok tt (if totalTicks st - startReadyTime (threads st t) >=? AGING_TICKS cfg
         then boosted cfg QPri compare_by_priority t st else st).
Proof.
  unfold agingBody, getStartReadyTime, bind, gets. cbv beta iota.
  destruct (totalTicks st - startReadyTime (threads st t) >=? AGING_TICKS cfg);
    reflexivity.
Qed.

Lemma boosted_threads t st x :
  threads (boosted cfg QPri compare_by_priority t st) x =
  if Nat.eqb x t
  then withStartReadyTime (totalTicks st)
         (withPriority (PRIORITY_AGING cfg + priority (threads st t)) (threads st x))
  else threads st x.
Proof. cbn. destruct (Nat.eqb x t); reflexivity. Qed.

Lemma boosted_Pri t st :
  readyPriorityList (boosted cfg QPri compare_by_priority t st) =
  Insert (compare_by_priority (threads (boosted cfg QPri compare_by_priority t st)))
    t (Remove t (readyPriorityList st)).
Proof. reflexivity. Qed.

Lemma Aging_start st0 :
  NoDup (readyPriorityList st0) -> Aging cfg st0 (readyPriorityList st0) st0.
Proof.
  intros Hnd. constructor; auto.
  intros x Hx Hn. contradiction.
Qed.

Lemma Aging_step st0 t rest st :
  NoDup (readyPriorityList st0) ->
  Aging cfg st0 (t :: rest) st ->
  exists st', agingBody cfg QPri t st = Ok tt st' /\ Aging cfg st0 rest st'.
Proof.
  intros Hnd0 A. rewrite agingBody_Pri. eexists. split; [reflexivity|].
  assert (Hnd : NoDup (readyPriorityList st)).
  { apply (Permutation_NoDup (Permutation_sym (ag_perm _ _ _ _ A))). exact Hnd0. }
  assert (Ht0 : In t (readyPriorityList st0)).
  { apply (ag_rem_in _ _ _ _ A). left. reflexivity. }
  assert (Ht : In t (readyPriorityList st)).
  { apply (Permutation_in _ (Permutation_sym (ag_perm _ _ _ _ A))). exact Ht0. }
  assert (Hrest : NoDup (t :: rest)) by apply (ag_rem_once _ _ _ _ A).
  assert (Htt : threads st t = threads st0 t).
  { apply (ag_todo _ _ _ _ A). right. left. reflexivity. }
  assert (Hcond : (totalTicks st - startReadyTime (threads st t) >=? AGING_TICKS cfg) =
                  (totalTicks st0 - startReadyTime (threads st0 t) >=? AGING_TICKS cfg)).
  { rewrite Htt, (ag_ticks _ _ _ _ A). reflexivity. }
  destruct (totalTicks st - startReadyTime (threads st t) >=? AGING_TICKS cfg) eqn:E.
  - (* due: boosted, stamped and repositioned *)
    constructor.
    + apply (ag_level _ _ _ _ A).
    + apply (ag_ticks _ _ _ _ A).
    + apply (ag_SJF _ _ _ _ A).
    + apply (ag_RR _ _ _ _ A).
    + rewrite boosted_Pri.
      apply perm_trans with (t :: Remove t (readyPriorityList st)).
      * apply Insert_perm.
      * apply perm_trans with (readyPriorityList st).
        -- apply Remove_perm, Ht.
        -- apply (ag_perm _ _ _ _ A).
    + inversion Hrest; assumption.
    + intros x Hx. apply (ag_rem_in _ _ _ _ A). right. exact Hx.
    + intros x Hx Hn. rewrite boosted_threads.
      destruct (Nat.eqb x t) eqn:Ext.
      * apply Nat.eqb_eq in Ext. subst x. unfold agedThread.
        rewrite <- Hcond, Htt, (ag_ticks _ _ _ _ A). reflexivity.
      * apply (ag_done _ _ _ _ A); [exact Hx|].
        intros [Hh|Hh]; [|contradiction].
        apply Nat.eqb_neq in Ext. congruence.
    + intros x Hx. rewrite boosted_threads.
      destruct (Nat.eqb x t) eqn:Ext.
      * apply Nat.eqb_eq in Ext. subst x. exfalso.
        destruct Hx as [Hx|Hx]; [contradiction|].
        inversion Hrest; contradiction.
      * apply (ag_todo _ _ _ _ A). destruct Hx as [Hx|Hx]; [left; exact Hx|].
        right. right. exact Hx.
    + intros Hs0. specialize (ag_sorted _ _ _ _ A Hs0). intros Hs.
      rewrite boosted_Pri. apply Insert_sorted_priority.
      apply byPriority_ext with (threads st).
      * intros x Hx. rewrite boosted_threads.
        destruct (Nat.eqb x t) eqn:Ext; [|reflexivity].
        apply Nat.eqb_eq in Ext. subst x. exfalso. revert Hx.
        apply Remove_NoDup_notin, Hnd.
      * apply Remove_sorted, Hs.
  - (* not due: untouched *)
    constructor; try apply A.
    + inversion Hrest; assumption.
    + intros x Hx. apply (ag_rem_in _ _ _ _ A). right. exact Hx.
    + intros x Hx Hn.
      destruct (Nat.eq_dec x t) as [->|Hne].
      * rewrite Htt. unfold agedThread. rewrite <- Hcond. reflexivity.
      * apply (ag_done _ _ _ _ A); [exact Hx|].
        intros [Hh|Hh]; [congruence|contradiction].
    + intros x Hx. apply (ag_todo _ _ _ _ A).
      destruct Hx as [Hx|Hx]; [left; exact Hx|right; right; exact Hx].
Qed.

Lemma Aging_loop st0 :
  NoDup (readyPriorityList st0) ->
  exists st1, forEach (readyPriorityList st0) (agingBody cfg QPri) st0 = Ok tt st1 /\
              Aging cfg st0 [] st1.
Proof.
  intros Hnd.
  apply (forEach_inv (Aging cfg st0)).
  - intros t rest st A. apply Aging_step; assumption.
  - apply Aging_start, Hnd.
Qed.

Lemma aging_Pri_loops st :
  aging cfg QPri st =
  (forEach (readyPriorityList st) (agingBody cfg QPri) ;; processMoving cfg) st.
Proof. reflexivity. Qed.

Lemma Aging_allReady st0 st :
  Aging cfg st0 [] st -> Permutation (allReady st) (allReady st0).
Proof.
  intros A. unfold allReady.
  rewrite (ag_SJF _ _ _ _ A), (ag_RR _ _ _ _ A).
  apply Permutation_app_head, Permutation_app_head, (ag_perm _ _ _ _ A).
Qed.

Lemma Aging_status st0 st x :
  Aging cfg st0 [] st -> status (threads st x) = status (threads st0 x).
Proof.
  intros A.
  destruct (in_dec Nat.eq_dec x (readyPriorityList st0)) as [Hx|Hx].
  - rewrite (ag_done _ _ _ _ A x Hx (fun H => H)). unfold agedThread.
    destruct (_ >=? _); reflexivity.
  - rewrite (ag_todo _ _ _ _ A x (or_introl Hx)). reflexivity.
Qed.

End AgingLoop.

(** ** Selection *)

Lemma selectNext_spec st :
  selectNext st =
  match readySJFList st with
  | t :: r => Ok (Some t) (setList QSJF r st)
  | [] =>
    match readyRRList st with
    | t :: r => Ok (Some t) (setList QRR r st)
    | [] =>
      match readyPriorityList st with
      | t :: r => Ok (Some t) (setList QPri r st)
      | [] => Ok None st
      end
    end
  end.
Proof.
  unfold selectNext, bind, List_IsEmpty, List_RemoveFront, gets, ret. simpl.
  destruct (readySJFList st) eqn:E1; cbn; rewrite ?E1; [|reflexivity].
  destruct (readyRRList st) eqn:E2; cbn; rewrite ?E1, ?E2; [|reflexivity].
  destruct (readyPriorityList st) eqn:E3; cbn; rewrite ?E1, ?E2, ?E3; reflexivity.
Qed.

Lemma FindNextToRun_off cfg st :
  level st = IntOff ->
  FindNextToRun cfg st = (aging cfg QPri ;; selectNext) st.
Proof.
  intros H. unfold FindNextToRun, bind at 1, ASSERT, interruptsOff.
  rewrite H. reflexivity.
Qed.

Lemma FindNextToRun_on cfg st :
  level st = IntOn -> FindNextToRun cfg st = Stop AssertionFailed st.
Proof.
  intros H. unfold FindNextToRun, bind, ASSERT, interruptsOff. rewrite H. reflexivity.
Qed.

(** ** The calls return when interrupts are off *)

Section Returns.

Variable cfg : Config.

Lemma requalifyBody_returns q t st :
  level st = IntOff ->
  exists st', requalifyBody cfg q t st = Ok tt st' /\ level st' = IntOff.
Proof.
  intros Hl. unfold requalifyBody, bind, getPriority, gets.
  destruct (outOfBand cfg q (priority (threads st t))).
  - unfold List_Remove, modify. rewrite ReadyToRun_off.
    + eexists. split; [reflexivity|].
      rewrite readied_level. destruct q; exact Hl.
    + destruct q; exact Hl.
  - exists st. split; [reflexivity|exact Hl].
Qed.

Lemma processMoving_returns st :
  level st = IntOff ->
  exists st', processMoving cfg st = Ok tt st' /\ level st' = IntOff.
Proof.
  intros Hl.
  assert (L : forall q items s, level s = IntOff ->
            exists s', forEach items (requalifyBody cfg q) s = Ok tt s' /\
                       level s' = IntOff).
  { intros q items s Hs.
    apply (forEach_inv (fun _ s => level s = IntOff)); [|exact Hs].
    intros t _ s0 Hs0. apply requalifyBody_returns, Hs0. }
  destruct (L QSJF (getList QSJF st) st Hl) as (s1 & E1 & H1).
  destruct (L QRR (getList QRR st) s1 H1) as (s2 & E2 & H2).
  destruct (L QPri (getList QPri st) s2 H2) as (s3 & E3 & H3).
  exists s3. split; [|exact H3].
  change (processMoving cfg st) with
    ((forEach (getList QSJF st) (requalifyBody cfg QSJF) ;;
      forEach (getList QRR st) (requalifyBody cfg QRR) ;;
      forEach (getList QPri st) (requalifyBody cfg QPri)) st).
  unfold bind. rewrite E1, E2. exact E3.
Qed.

Lemma aging_returns st :
  level st = IntOff ->
  exists st', aging cfg QPri st = Ok tt st' /\ level st' = IntOff.
Proof.
  intros Hl. rewrite aging_Pri_loops. unfold bind.
  destruct (forEach_inv (fun _ s => level s = IntOff) (agingBody cfg QPri))
    with (items := readyPriorityList st) (st := st) as (s1 & E1 & H1).
  - intros t _ s Hs. rewrite agingBody_Pri. eexists. split; [reflexivity|].
    destruct (_ >=? _); exact Hs.
  - exact Hl.
  - rewrite E1. apply processMoving_returns, H1.
Qed.

End Returns.

(** ** The partition is kept by every call *)

Lemma Partition_frame cfg st st' :
  Partition cfg st ->
  (forall q, getList q st' = getList q st) ->
  (forall t, In t (allReady st) ->
     status (threads st' t) = status (threads st t) /\
     priority (threads st' t) = priority (threads st t)) ->
  Partition cfg st'.
Proof.
  intros [P1 P2 P3] Hl Ht.
  assert (Ha : allReady st' = allReady st).
  { pose proof (Hl QSJF) as H1. pose proof (Hl QRR) as H2. pose proof (Hl QPri) as H3.
    simpl in H1, H2, H3. unfold allReady. rewrite H1, H2, H3. reflexivity. }
  constructor.
  - rewrite Ha. exact P1.
  - intros q t Hin. rewrite Hl in Hin.
    destruct (Ht t (In_getList_allReady _ _ _ Hin)) as [E _]. rewrite E.
    apply (P2 q t Hin).
  - intros q t Hin. rewrite Hl in Hin.
    destruct (Ht t (In_getList_allReady _ _ _ Hin)) as [_ E]. rewrite E.
    apply (P3 q t Hin).
Qed.

Lemma Partition_init cfg st : allReady st = [] -> Partition cfg st.
Proof.
  intros H.
  assert (E : forall q t, ~ In t (getList q st)).
  { intros q t Hin. apply In_getList_allReady in Hin. rewrite H in Hin. exact Hin. }
  constructor.
  - rewrite H. constructor.
  - intros q t Hin. destruct (E q t Hin).
  - intros q t Hin. destruct (E q t Hin).
Qed.

Lemma Partition_kernelStep cfg st st' :
  Partition cfg st -> kernelStep st st' -> Partition cfg st'.
Proof.
  intros P [Hl Ht]. apply Partition_frame with st; [exact P|exact Hl|].
  intros t Hin. rewrite (Ht t Hin). split; reflexivity.
Qed.

Lemma Partition_front cfg st q t r :
  Partition cfg st -> getList q st = t :: r -> Partition cfg (setList q r st).
Proof.
  intros [P1 P2 P3] Hq.
  assert (Hsub : forall q' x, In x (getList q' (setList q r st)) -> In x (getList q' st)).
  { intros q' x. rewrite getList_setList. destruct (Queue_eqb q' q) eqn:E.
    - apply Queue_eqb_eq in E. subst q'. rewrite Hq. intros Hx. right. exact Hx.
    - intros Hx. exact Hx. }
  constructor.
  - assert (Hp : Permutation (t :: allReady (setList q r st)) (allReady st)).
    { unfold allReady. destruct q; simpl in *; rewrite Hq.
      - apply Permutation_middle.
      - rewrite !app_assoc. apply Permutation_middle.
      - apply Permutation_refl. }
    apply (Permutation_NoDup (Permutation_sym Hp)) in P1.
    inversion P1; assumption.
  - intros q' x Hx. rewrite setList_threads. apply (P2 q' x), Hsub, Hx.
  - intros q' x Hx. rewrite setList_threads. apply (P3 q' x), Hsub, Hx.
Qed.

Lemma selectNext_Partition cfg st r st' :
  Partition cfg st -> selectNext st = Ok r st' -> Partition cfg st'.
Proof.
  intros P. rewrite selectNext_spec.
  destruct (readySJFList st) as [|t l] eqn:E1.
  - destruct (readyRRList st) as [|t l] eqn:E2.
    + destruct (readyPriorityList st) as [|t l] eqn:E3; intros H; inversion H; subst.
      * exact P.
      * exact (Partition_front cfg st QPri t _ P E3).
    + intros H; inversion H; subst. exact (Partition_front cfg st QRR t _ P E2).
  - intros H; inversion H; subst. exact (Partition_front cfg st QSJF t _ P E1).
Qed.

Lemma Run_Ok_frame nextThread finishing st st' :
  Run nextThread finishing st = Ok tt st' ->
  (forall q, getList q st' = getList q st) /\
  (forall x, priority (threads st' x) = priority (threads st x)) /\
  (forall x, x <> nextThread -> status (threads st' x) = status (threads st x)).
Proof.
  intros H.
  destruct (Nat.eq_dec nextThread (currentThread st)) as [->|Hne].
  { rewrite Run_same_thread in H. inversion H; subst. auto. }
  destruct (level st) eqn:Hl.
  2:{ rewrite Run_on in H by assumption. discriminate. }
  assert (Hfin : finishing = true -> toBeDestroyed st = None).
  { intros ->. destruct (toBeDestroyed st) eqn:Ed; [|reflexivity]. exfalso.
    unfold Run, bind, gets in H.
    destruct (Nat.eqb (currentThread st) nextThread) eqn:E.
    { apply Nat.eqb_eq in E. congruence. }
    unfold ASSERT, interruptsOff in H. rewrite Hl, Ed in H. discriminate. }
  destruct (stackIntact (threads st (currentThread st))) eqn:Hs.
  - destruct (Run_dispatch nextThread finishing st Hne Hl Hfin Hs)
      as (s & E & _ & _ & _ & _ & Hq & Hp & Hst & _).
    rewrite E in H. inversion H; subst. auto.
  - exfalso. unfold Run, bind, gets in H.
    destruct (Nat.eqb (currentThread st) nextThread) eqn:E.
    { apply Nat.eqb_eq in E. congruence. }
    unfold ASSERT, interruptsOff in H. rewrite Hl in H.
    destruct finishing.
    + rewrite (Hfin eq_refl) in H. cbn in H.
      destruct (space (threads st (currentThread st))); cbn in H;
        unfold ASSERT in H; cbn in H; rewrite Hs in H; discriminate.
    + cbn in H.
      destruct (space (threads st (currentThread st))); cbn in H;
        unfold ASSERT in H; cbn in H; rewrite Hs in H; discriminate.
Qed.

Lemma Run_resumed_frame oldThread st st' :
  Run_resumed oldThread st = Ok tt st' ->
  (forall q, getList q st' = getList q st) /\ threads st' = threads st.
Proof.
  unfold Run_resumed, CheckToBeDestroyed, bind, ASSERT, gets.
  destruct (interruptsOff st); [|discriminate].
  destruct (toBeDestroyed st); cbn;
    destruct (space (threads st oldThread)); cbn;
    intros H; inversion H; subst; cbn; split; try reflexivity;
    intros q; destruct q; reflexivity.
Qed.

Section Invariant.

Variable cfg : Config.

Lemma Partition_ReadyToRun st thread st' :
  Partition cfg st -> ~ In thread (allReady st) ->
  ReadyToRun cfg thread st = Ok tt st' -> Partition cfg st'.
Proof.
  intros [P1 P2 P3] Hn H.
  destruct (level st) eqn:Hl.
  2:{ rewrite ReadyToRun_on in H by assumption. discriminate. }
  rewrite ReadyToRun_off in H by assumption. inversion H; subst st'. clear H.
  assert (Hin : forall q x, In x (getList q (readied cfg thread st)) ->
           (x = thread /\ q = bandOf cfg (priority (threads st thread))) \/
           In x (getList q st)).
  { intros q x. rewrite readied_getList.
    destruct (Queue_eqb q _) eqn:E; [|tauto].
    apply Queue_eqb_eq in E. intros Hx.
    apply (Permutation_in _ (appended_perm _ _ _ _)) in Hx.
    destruct Hx as [<-|Hx]; [left; auto|right; exact Hx]. }
  constructor.
  - apply (Permutation_NoDup (Permutation_sym (readied_allReady cfg thread st))).
    constructor; assumption.
  - intros q x Hx. rewrite readied_threads.
    destruct (Nat.eqb x thread) eqn:E; [reflexivity|].
    destruct (Hin q x Hx) as [[-> _]|Hx'].
    + rewrite Nat.eqb_refl in E. discriminate.
    + apply (P2 q x Hx').
  - intros q x Hx. rewrite readied_priority.
    destruct (Hin q x Hx) as [[-> ->]|Hx'].
    + apply bandOf_inBand.
    + apply (P3 q x Hx').
Qed.

Lemma Partition_processMoving st st' :
  Partition cfg st -> processMoving cfg st = Ok tt st' -> Partition cfg st'.
Proof.
  intros P H.
  rewrite (processMoving_noop cfg st (part_band _ _ P)) in H.
  inversion H; subst. exact P.
Qed.

Lemma requalifyBody_on q t st st' :
  level st = IntOn -> requalifyBody cfg q t st = Ok tt st' ->
  st' = st /\ inBand cfg q (priority (threads st t)).
Proof.
  intros Hl. unfold requalifyBody, bind, getPriority, gets.
  destruct (outOfBand cfg q (priority (threads st t))) eqn:E.
  - unfold List_Remove, modify. rewrite ReadyToRun_on.
    + discriminate.
    + rewrite setList_level. exact Hl.
  - intros H. inversion H; subst. split; [reflexivity|].
    apply (outOfBand_false cfg), E.
Qed.

Lemma forEach_on q items st st' :
  level st = IntOn -> forEach items (requalifyBody cfg q) st = Ok tt st' ->
  st' = st /\ forall t, In t items -> inBand cfg q (priority (threads st t)).
Proof.
  intros Hl. induction items as [|t rest IH]; simpl.
  - intros H. inversion H; subst. split; [reflexivity|intros t []].
  - unfold bind. destruct (requalifyBody cfg q t st) as [[] s|w s] eqn:E; [|discriminate].
    apply requalifyBody_on in E; [|exact Hl]. destruct E as [-> Hb].
    intros H. destruct (IH H) as [-> Hrest]. split; [reflexivity|].
    intros x [<-|Hx]; [exact Hb|apply Hrest, Hx].
Qed.

Lemma processMoving_on st st' :
  level st = IntOn -> processMoving cfg st = Ok tt st' ->
  st' = st /\ forall q t, In t (getList q st) -> inBand cfg q (priority (threads st t)).
Proof.
  intros Hl. rewrite processMoving_loops. unfold bind.
  destruct (forEach (getList QSJF st) (requalifyBody cfg QSJF) st) as [[] s1|] eqn:E1;
    [|discriminate].
  apply forEach_on in E1; [|exact Hl]. destruct E1 as [-> B1].
  destruct (forEach (getList QRR st) (requalifyBody cfg QRR) st) as [[] s2|] eqn:E2;
    [|discriminate].
  apply forEach_on in E2; [|exact Hl]. destruct E2 as [-> B2].
  intros E3. apply forEach_on in E3; [|exact Hl]. destruct E3 as [-> B3].
  split; [reflexivity|]. intros [| |]; assumption.
Qed.

(** The state between the loop of [aging] and [processMoving]: no thread is
    referenced twice, and the threads on the lists are [READY]. *)
Lemma Aging_wellformed st st1 :
  Partition cfg st -> Aging cfg st [] st1 ->
  NoDup (allReady st1) /\
  (forall q t, In t (getList q st1) -> status (threads st1 t) = READY).
Proof.
  intros P A. split.
  - apply (Permutation_NoDup (Permutation_sym (Aging_allReady cfg st st1 A))).
    apply (part_once _ _ P).
  - intros q t Ht. rewrite (Aging_status cfg st st1 t A).
    apply In_getList_allReady in Ht.
    apply (Permutation_in _ (Aging_allReady cfg st st1 A)) in Ht.
    apply In_allReady in Ht. destruct Ht as (q0 & Ht).
    apply (part_ready _ _ P q0 t Ht).
Qed.

Lemma Partition_aging st st' :
  Partition cfg st -> aging cfg QPri st = Ok tt st' -> Partition cfg st'.
Proof.
  intros P. rewrite aging_Pri_loops. unfold bind.
  destruct (Aging_loop cfg st (NoDup_getList QPri st (part_once _ _ P)))
    as (st1 & E1 & A).
  rewrite E1. intros H.
  destruct (Aging_wellformed st st1 P A) as [Hnd Hready].
  destruct (level st1) eqn:Hl.
  - destruct (processMoving_Sweep cfg st1 Hl Hnd) as (st2 & E2 & S).
    rewrite E2 in H. inversion H; subst st'.
    apply (Sweep_Partition cfg st1 st2 Hnd Hready S).
  - apply processMoving_on in H; [|exact Hl]. destruct H as [-> Hb].
    constructor; assumption.
Qed.

Lemma Partition_FindNextToRun st r st' :
  Partition cfg st -> FindNextToRun cfg st = Ok r st' -> Partition cfg st'.
Proof.
  intros P H.
  destruct (level st) eqn:Hl.
  2:{ rewrite FindNextToRun_on in H by assumption. discriminate. }
  rewrite FindNextToRun_off in H by assumption. unfold bind in H.
  destruct (aging cfg QPri st) as [[] st1|] eqn:E; [|discriminate].
  apply selectNext_Partition with st1 r; [|exact H].
  apply Partition_aging with st; assumption.
Qed.

Lemma Partition_Run st nextThread finishing st' :
  Partition cfg st -> ~ In nextThread (allReady st) ->
  Run nextThread finishing st = Ok tt st' -> Partition cfg st'.
Proof.
  intros P Hn H. apply Run_Ok_frame in H. destruct H as (Hq & Hp & Hs).
  apply Partition_frame with st; [exact P|exact Hq|].
  intros t Ht. split; [|apply Hp].
  apply Hs. intros ->. contradiction.
Qed.

Lemma Partition_Run_resumed st oldThread st' :
  Partition cfg st -> Run_resumed oldThread st = Ok tt st' -> Partition cfg st'.
Proof.
  intros P H. apply Run_resumed_frame in H. destruct H as (Hq & Ht).
  apply Partition_frame with st; [exact P|exact Hq|].
  intros t _. rewrite Ht. split; reflexivity.
Qed.

End Invariant.

(** ** Ordering of binary64 numbers *)

Lemma SFleb_total x y :
  x <> S754_nan -> y <> S754_nan -> SFltb x y = false -> SFleb y x = true.
Proof.
  unfold SFltb, SFleb.
  destruct x as [sx|sx| |sx mx ex], y as [sy|sy| |sy my ey]; simpl; try congruence;
    try (destruct sx; simpl; congruence);
    try (destruct sy; simpl; congruence);
    try (destruct sx, sy; simpl; congruence).
  intros _ _.
  destruct sx, sy; simpl; try congruence;
    destruct (Z.compare_spec ex ey), (Z.compare_spec ey ex);
    simpl; try congruence; try lia; subst; fold_Pos_compare;
    destruct (Pos.compare_spec mx my), (Pos.compare_spec my mx);
    simpl; try congruence; try lia.
Qed.

Lemma SFltb_leb x y : SFltb x y = true -> SFleb x y = true.
Proof.
  unfold SFltb, SFleb. destruct (SFcompare x y) as [[]|]; congruence.
Qed.

Lemma SFleb_trans x y z :
  SFleb x y = true -> SFleb y z = true -> SFleb x z = true.
Proof.
  unfold SFleb.
  destruct x as [sx|sx| |sx mx ex], y as [sy|sy| |sy my ey], z as [sz|sz| |sz mz ez];
    simpl; try congruence;
    try (destruct sx; simpl; congruence);
    try (destruct sy; simpl; congruence);
    try (destruct sz; simpl; congruence);
    try (destruct sx, sy; simpl; congruence);
    try (destruct sx, sz; simpl; congruence);
    try (destruct sy, sz; simpl; congruence);
    try (destruct sx, sy, sz; simpl; congruence).
  destruct sx, sy, sz; simpl; try congruence;
    destruct (Z.compare_spec ex ey), (Z.compare_spec ey ez), (Z.compare_spec ex ez);
    simpl; try congruence; try lia; subst; fold_Pos_compare;
    destruct (Pos.compare_spec mx my), (Pos.compare_spec my mz), (Pos.compare_spec mx mz);
    simpl; try congruence; try lia.
Qed.

Lemma not_nan_Prim2SF f : PrimFloat.is_nan f = false -> Prim2SF f <> S754_nan.
Proof.
  unfold PrimFloat.is_nan. rewrite negb_false_iff, FloatAxioms.eqb_spec.
  intros H E. rewrite E in H. discriminate.
Qed.

Lemma float_ltb_leb a b : PrimFloat.ltb a b = true -> PrimFloat.leb a b = true.
Proof. rewrite FloatAxioms.ltb_spec, FloatAxioms.leb_spec. apply SFltb_leb. Qed.

Lemma float_leb_total a b :
  PrimFloat.is_nan a = false -> PrimFloat.is_nan b = false ->
  PrimFloat.ltb a b = false -> PrimFloat.leb b a = true.
Proof.
  intros Ha Hb. rewrite FloatAxioms.ltb_spec, FloatAxioms.leb_spec.
  apply SFleb_total; apply not_nan_Prim2SF; assumption.
Qed.

Lemma float_leb_trans a b c :
  PrimFloat.leb a b = true -> PrimFloat.leb b c = true -> PrimFloat.leb a c = true.
Proof. rewrite !FloatAxioms.leb_spec. apply SFleb_trans. Qed.

(** ** Order of the SJF queue *)

Lemma compare_by_burst_neg th x y :
  (compare_by_burst th x y <? 0) = PrimFloat.ltb (burstTime (th x)) (burstTime (th y)).
Proof.
  unfold compare_by_burst.
  destruct (PrimFloat.ltb (burstTime (th x)) (burstTime (th y))); [reflexivity|].
  destruct (PrimFloat.ltb (burstTime (th y)) (burstTime (th x))); reflexivity.
Qed.

Lemma Insert_sorted_burst th x l :
  PrimFloat.is_nan (burstTime (th x)) = false ->
  (forall y, In y l -> PrimFloat.is_nan (burstTime (th y)) = false) ->
  StronglySorted (byBurst th) l ->
  StronglySorted (byBurst th) (Insert (compare_by_burst th) x l).
Proof.
  intros Hx Hl H. induction H as [|a l Hs IH Hall]; simpl.
  - repeat constructor.
  - rewrite compare_by_burst_neg.
    destruct (PrimFloat.ltb (burstTime (th x)) (burstTime (th a))) eqn:E.
    + apply float_ltb_leb in E.
      constructor; [constructor; assumption|].
      constructor; [exact E|].
      rewrite Forall_forall in *. intros y Hy. unfold byBurst.
      apply float_leb_trans with (burstTime (th a)); [exact E|apply Hall, Hy].
    + constructor.
      * apply IH. intros y Hy. apply Hl. right. exact Hy.
      * rewrite Forall_forall in *. intros y Hy.
        apply Insert_In in Hy. destruct Hy as [->|Hy]; [|apply Hall, Hy].
        unfold byBurst. apply float_leb_total; [exact Hx| |exact E].
        apply Hl. left. reflexivity.
Qed.






Section ShortestJobFirst.

Variable cfg : Config.



Lemma FindNextToRun_quiescent st :
  level st = IntOff -> readyPriorityList st = [] ->
  (forall q t, In t (getList q st) -> inBand cfg q (priority (threads st t))) ->
  FindNextToRun cfg st = selectNext st.
Proof.
  intros Hl Hp Hb. rewrite FindNextToRun_off by exact Hl.
  unfold bind at 1. rewrite aging_Pri_loops. unfold bind at 1.
  rewrite Hp. simpl. unfold ret. rewrite processMoving_noop by exact Hb.
  reflexivity.
Qed.


End ShortestJobFirst.

(** ** Where a ready thread is found *)

Lemma Partition_located cfg st t :
  PRI_SCHD_THRESHHOLD cfg < SJF_SCHD_THRESHHOLD cfg ->
  Partition cfg st -> In t (allReady st) ->
  (SJF_SCHD_THRESHHOLD cfg <= priority (threads st t) -> In t (readySJFList st)) /\
  (PRI_SCHD_THRESHHOLD cfg <= priority (threads st t) < SJF_SCHD_THRESHHOLD cfg ->
     In t (readyRRList st)) /\
  (priority (threads st t) < PRI_SCHD_THRESHHOLD cfg -> In t (readyPriorityList st)).
Proof.
  intros Hord P Ht. apply In_allReady in Ht. destruct Ht as (q & Hq).
  pose proof (part_band _ _ P q t Hq) as Hb.
  repeat split; intros Hp.
  - assert (q = QSJF) by (apply (inBand_unique cfg Hord q QSJF _ Hb); exact Hp).
    subst q. exact Hq.
  - assert (q = QRR) by (apply (inBand_unique cfg Hord q QRR _ Hb); exact Hp).
    subst q. exact Hq.
  - assert (q = QPri) by (apply (inBand_unique cfg Hord q QPri _ Hb); exact Hp).
    subst q. exact Hq.
Qed.

Lemma reachable_Partition cfg st : reachable cfg st -> Partition cfg st.
Proof.
  induction 1.
  - apply Partition_init. assumption.
  - apply Partition_kernelStep with st; assumption.
  - apply Partition_ReadyToRun with st thread; assumption.
  - apply Partition_processMoving with st; assumption.
  - apply Partition_aging with st; assumption.
  - apply Partition_FindNextToRun with st r; assumption.
  - apply Partition_Run with st nextThread finishing; assumption.
  - apply Partition_Run_resumed with st oldThread; assumption.
Qed.

(** ** The threads the lists hold, before and after a call *)

Lemma allReady_getList st st' :
  (forall q, getList q st' = getList q st) -> allReady st' = allReady st.
Proof.
  intros H. unfold allReady.
  rewrite (H QSJF : readySJFList st' = readySJFList st).
  rewrite (H QRR : readyRRList st' = readyRRList st).
  rewrite (H QPri : readyPriorityList st' = readyPriorityList st).
  reflexivity.
Qed.

Lemma ReadyToRun_Ok_perm cfg thread st st' :
  ReadyToRun cfg thread st = Ok tt st' ->
  Permutation (allReady st') (thread :: allReady st).
Proof.
  intros H. destruct (level st) eqn:Hl.
  - rewrite (ReadyToRun_off cfg thread st Hl) in H. inversion H; subst st'.
    apply readied_allReady.
  - rewrite (ReadyToRun_on cfg thread st Hl) in H. discriminate H.
Qed.

Lemma aging_Ok_perm cfg st st' :
  Partition cfg st -> aging cfg QPri st = Ok tt st' ->
  Permutation (allReady st') (allReady st).
Proof.
  intros P. rewrite aging_Pri_loops. unfold bind.
  destruct (Aging_loop cfg st (NoDup_getList QPri st (part_once _ _ P)))
    as (st1 & E1 & A).
  rewrite E1. intros H.
  destruct (Aging_wellformed cfg st st1 P A) as [Hnd _].
  apply perm_trans with (allReady st1); [|apply (Aging_allReady cfg st st1 A)].
  destruct (level st1) eqn:Hl.
  - destruct (processMoving_Sweep cfg st1 Hl Hnd) as (st2 & E2 & S).
    rewrite E2 in H. inversion H; subst st'.
    apply (sw_perm _ _ _ _ S).
  - apply processMoving_on in H; [|exact Hl]. destruct H as [-> _].
    apply Permutation_refl.
Qed.

Lemma selectNext_front st r st' :
  selectNext st = Ok r st' ->
  threads st' = threads st /\
  match r with
  | Some t => In t (allReady st) /\ Permutation (allReady st) (t :: allReady st')
  | None => allReady st = [] /\ st' = st
  end.
Proof.
  rewrite selectNext_spec. unfold allReady.
  destruct (readySJFList st) as [|t1 r1] eqn:E1.
  - destruct (readyRRList st) as [|t2 r2] eqn:E2.
    + destruct (readyPriorityList st) as [|t3 r3] eqn:E3.
      * intros H. inversion H; subst. repeat split.
      * intros H. inversion H; subst. split; [reflexivity|].
        simpl. rewrite E1, E2. split; [left; reflexivity|apply Permutation_refl].
    + intros H. inversion H; subst. split; [reflexivity|].
      simpl. rewrite E1. split; [left; reflexivity|apply Permutation_refl].
  - intros H. inversion H; subst. split; [reflexivity|].
    simpl. split; [left; reflexivity|apply Permutation_refl].
Qed.

Lemma FindNextToRun_Ok_perm cfg st r st' :
  Partition cfg st -> FindNextToRun cfg st = Ok r st' ->
  match r with
  | Some t => Permutation (allReady st) (t :: allReady st') /\
              status (threads st' t) = READY /\
              ~ In t (allReady st')
  | None => allReady st = [] /\ allReady st' = []
  end.
Proof.
  intros P H. destruct (level st) eqn:Hl.
  - rewrite (FindNextToRun_off cfg st Hl) in H. unfold bind in H.
    destruct (aging cfg QPri st) as [[] s1|why s1] eqn:Ea; [|discriminate H].
    pose proof (aging_Ok_perm cfg st s1 P Ea) as Hp.
    pose proof (Partition_aging cfg st s1 P Ea) as P1.
    destruct (selectNext_front s1 r st' H) as [Ht Hr].
    destruct r as [t|].
    + destruct Hr as [Hin Hq].
      assert (Hnd : NoDup (t :: allReady st')).
      { apply (Permutation_NoDup Hq). apply (part_once _ _ P1). }
      split; [|split].
      * apply perm_trans with (allReady s1); [apply Permutation_sym; exact Hp|exact Hq].
      * rewrite Ht. apply In_allReady in Hin. destruct Hin as (q & Hin).
        apply (part_ready _ _ P1 q t Hin).
      * inversion Hnd; assumption.
    + destruct Hr as [He ->]. split; [|exact He].
      rewrite He in Hp. apply Permutation_nil in Hp. exact Hp.
  - rewrite (FindNextToRun_on cfg st Hl) in H. discriminate H.
Qed.

(** * The properties of the design document *)

Lemma sampleLater_reachable : reachable sampleConfig sampleLater.
Proof.
  apply reach_kernel with (st := sampleWaiting).
  - apply reach_ReadyToRun
      with (st := stateOf (ReadyToRun sampleConfig 5%nat sampleBoot)) (thread := 6%nat).
    + apply reach_ReadyToRun with (st := sampleBoot) (thread := 5%nat).
      * apply reach_init. reflexivity.
      * vm_compute. tauto.
      * vm_compute. reflexivity.
    + vm_compute. intros [H|[]]. discriminate H.
    + vm_compute. reflexivity.
  - split.
    + intros q. destruct q; vm_compute; reflexivity.
    + intros t _. vm_compute. reflexivity.
Qed.

(** C1, as stated: in every reachable state each [READY] thread is on
    exactly one of the three ready lists, and every operation keeps it so.
    Two calls show otherwise.  [FindNextToRun] takes the thread it returns
    off its list and leaves its status alone (lines 149 to 156; the status
    changes in [Run], line 205): in [sampleSelected], reached by
    [ReadyToRun] for threads 5 and 6 and one call of [FindNextToRun],
    thread 5 is [READY] and the lists hold thread 6 only.  And [ReadyToRun]
    does not look for the thread on the lists (lines 60 to 80): called for
    thread 4, which is [READY] and on the Round-Robin list of the
    partitioned state [sampleQueued], it leaves that thread on the list
    twice. *)
Lemma READY_thread_unlisted_counterexample :
  reachable sampleConfig sampleSelected /\
  FindNextToRun sampleConfig sampleLater = Ok (Some 5%nat) sampleSelected /\
  status (threads sampleSelected 5%nat) = READY /\
  allReady sampleSelected = [6%nat] /\
  Partition sampleConfig sampleQueued /\
  status (threads sampleQueued 4%nat) = READY /\
  readyRRList sampleQueued = [4%nat] /\
  exists st',
    ReadyToRun sampleConfig 4%nat sampleQueued = Ok tt st' /\
    allReady st' = [4; 4]%nat.
Proof.
  split.
  { apply reach_FindNextToRun with (st := sampleLater) (r := Some 5%nat).
    - apply sampleLater_reachable.
    - vm_compute. reflexivity. }
  split; [vm_compute; reflexivity|].
  split; [vm_compute; reflexivity|].
  split; [vm_compute; reflexivity|].
  split.
  { apply reachable_Partition.
    apply reach_ReadyToRun with (st := sampleBoot) (thread := 4%nat).
    - apply reach_init. reflexivity.
    - vm_compute. tauto.
    - vm_compute. reflexivity. }
  split; [vm_compute; reflexivity|].
  split; [vm_compute; reflexivity|].
  exists (stateOf (ReadyToRun sampleConfig 4%nat sampleQueued)).
  split; vm_compute; reflexivity.
Qed.

(** C1, amended.  Take [PRI_SCHD_THRESHHOLD < SJF_SCHD_THRESHHOLD] and a
    state the kernel reaches by calling the scheduler by its protocol:
    [ReadyToRun] and [Run] are handed a thread that is on no ready list, and
    between two calls the kernel leaves the lists alone and writes only to
    threads on no list.  Then each thread held by the ready lists is [READY],
    is referenced exactly once by the three lists together, and is on the
    list its current priority selects: the SJF list from
    [SJF_SCHD_THRESHHOLD] upwards, the Round-Robin list from
    [PRI_SCHD_THRESHHOLD] up to [SJF_SCHD_THRESHHOLD], the Priority list
    below.  Every operation that returns keeps this, and the threads on the
    lists change only as follows.  [ReadyToRun] adds its thread.
    [processMoving], [aging], [Run] and the return from the switch neither
    add nor drop a thread.  [FindNextToRun] drops the thread it returns and
    no other; that thread is then [READY] and on no list, so that a [READY]
    thread is on exactly one list only from its [ReadyToRun] to the
    [FindNextToRun] that returns it.  When [FindNextToRun] returns NULL the
    lists were empty. *)
Theorem partition_invariant cfg st :
  PRI_SCHD_THRESHHOLD cfg < SJF_SCHD_THRESHHOLD cfg ->
  reachable cfg st ->
  Partition cfg st /\
  (forall t, In t (allReady st) ->
    count_occ Nat.eq_dec (allReady st) t = 1%nat /\
    (SJF_SCHD_THRESHHOLD cfg <= priority (threads st t) -> In t (readySJFList st)) /\
    (PRI_SCHD_THRESHHOLD cfg <= priority (threads st t) < SJF_SCHD_THRESHHOLD cfg ->
       In t (readyRRList st)) /\
    (priority (threads st t) < PRI_SCHD_THRESHHOLD cfg -> In t (readyPriorityList st))) /\
  (forall thread st',
     ~ In thread (allReady st) -> ReadyToRun cfg thread st = Ok tt st' ->
     Partition cfg st' /\ Permutation (allReady st') (thread :: allReady st)) /\
  (forall st',
     processMoving cfg st = Ok tt st' ->
     Partition cfg st' /\ Permutation (allReady st') (allReady st)) /\
  (forall st',
     aging cfg QPri st = Ok tt st' ->
     Partition cfg st' /\ Permutation (allReady st') (allReady st)) /\
  (forall r st',
     FindNextToRun cfg st = Ok r st' ->
     Partition cfg st' /\
     match r with
     | Some t => Permutation (allReady st) (t :: allReady st') /\
                 status (threads st' t) = READY /\
                 ~ In t (allReady st')
     | None => allReady st = [] /\ allReady st' = []
     end) /\
  (forall nextThread finishing st',
     ~ In nextThread (allReady st) -> Run nextThread finishing st = Ok tt st' ->
     Partition cfg st' /\ allReady st' = allReady st) /\
  (forall oldThread st',
     Run_resumed oldThread st = Ok tt st' ->
     Partition cfg st' /\ allReady st' = allReady st).
Proof.
  intros Hord Hr. pose proof (reachable_Partition cfg st Hr) as P.
  split; [exact P|]. split.
  { intros t Ht. split.
    - apply NoDup_count_occ'; [apply (part_once _ _ P)|exact Ht].
    - apply Partition_located; assumption. }
  split.
  { intros thread st' Hn H. split.
    - apply (Partition_ReadyToRun cfg st thread st' P Hn H).
    - apply (ReadyToRun_Ok_perm cfg thread st st' H). }
  split.
  { intros st' H. split.
    - apply (Partition_processMoving cfg st st' P H).
    - rewrite (processMoving_noop cfg st (part_band _ _ P)) in H.
      inversion H; subst st'. apply Permutation_refl. }
  split.
  { intros st' H. split.
    - apply (Partition_aging cfg st st' P H).
    - apply (aging_Ok_perm cfg st st' P H). }
  split.
  { intros r st' H. split.
    - apply (Partition_FindNextToRun cfg st r st' P H).
    - apply (FindNextToRun_Ok_perm cfg st r st' P H). }
  split.
  { intros nextThread finishing st' Hn H. split.
    - apply (Partition_Run cfg st nextThread finishing st' P Hn H).
    - apply allReady_getList. apply (Run_Ok_frame _ _ _ _ H). }
  intros oldThread st' H. split.
  - apply (Partition_Run_resumed cfg st oldThread st' P H).
  - apply allReady_getList. apply (Run_resumed_frame _ _ _ H).
Qed.

Lemma partition_invariant_witness :
  Partition sampleConfig sampleLater /\
  (forall t, In t (allReady sampleLater) ->
    count_occ Nat.eq_dec (allReady sampleLater) t = 1%nat /\
    (100 <= priority (threads sampleLater t) -> In t (readySJFList sampleLater)) /\
    (50 <= priority (threads sampleLater t) < 100 -> In t (readyRRList sampleLater)) /\
    (priority (threads sampleLater t) < 50 -> In t (readyPriorityList sampleLater))) /\
  Partition sampleConfig sampleSelected /\
  Permutation (allReady sampleLater) (5 :: allReady sampleSelected)%nat /\
  status (threads sampleSelected 5%nat) = READY /\
  ~ In 5%nat (allReady sampleSelected).
Proof.
  destruct (partition_invariant sampleConfig sampleLater) as (P & L & _ & _ & _ & F & _).
  - simpl. lia.
  - apply sampleLater_reachable.
  - destruct (F (Some 5%nat) sampleSelected) as (P' & Hp & Hs & Hn).
    + vm_compute. reflexivity.
    + exact (conj P (conj L (conj P' (conj Hp (conj Hs Hn))))).
Defined.

(** C2 (selection).  With interrupts off, [FindNextToRun] first runs
    [aging] on the Priority queue, which returns, and then takes the front
    of the SJF list if that list is not empty, else the front of the
    Round-Robin list if that one is not empty, else the front of the
    Priority list if that one is not empty; when all three are empty it
    returns NULL.  The call always returns. *)
Theorem FindNextToRun_selects cfg st :
  level st = IntOff ->
  exists st1,
    aging cfg QPri st = Ok tt st1 /\
    FindNextToRun cfg st =
    match readySJFList st1 with
    | t :: rest => Ok (Some t) (setList QSJF rest st1)
    | [] =>
      match readyRRList st1 with
      | t :: rest => Ok (Some t) (setList QRR rest st1)
      | [] =>
        match readyPriorityList st1 with
        | t :: rest => Ok (Some t) (setList QPri rest st1)
        | [] => Ok None st1
        end
      end
    end.
Proof.
  intros Hl. destruct (aging_returns cfg st Hl) as (st1 & E & _).
  exists st1. split; [exact E|].
  rewrite FindNextToRun_off by exact Hl. unfold bind. rewrite E.
  apply selectNext_spec.
Qed.

Lemma FindNextToRun_selects_witness :
  exists st1,
    aging sampleConfig QPri sampleLater = Ok tt st1 /\
    FindNextToRun sampleConfig sampleLater =
    match readySJFList st1 with
    | t :: rest => Ok (Some t) (setList QSJF rest st1)
    | [] =>
      match readyRRList st1 with
      | t :: rest => Ok (Some t) (setList QRR rest st1)
      | [] =>
        match readyPriorityList st1 with
        | t :: rest => Ok (Some t) (setList QPri rest st1)
        | [] => Ok None st1
        end
      end
    end.
Proof.
  apply (FindNextToRun_selects sampleConfig sampleLater). vm_compute. reflexivity.
Defined.

(** C3 (admission).  With interrupts off, [ReadyToRun] returns; the thread
    is then [READY], its ready-since stamp is the current tick, its
    priority and every other thread are as before, and the thread has been
    put on exactly one list: the SJF list when its priority is at least
    [SJF_SCHD_THRESHHOLD], else the Round-Robin list (at its end) when the
    priority is at least [PRI_SCHD_THRESHHOLD], else the Priority list.  The
    other two lists are unchanged. *)
Theorem ReadyToRun_effect cfg thread st :
  level st = IntOff ->
  exists st',
    ReadyToRun cfg thread st = Ok tt st' /\
    status (threads st' thread) = READY /\
    startReadyTime (threads st' thread) = totalTicks st /\
    priority (threads st' thread) = priority (threads st thread) /\
    (forall x, x <> thread -> threads st' x = threads st x) /\
    (SJF_SCHD_THRESHHOLD cfg <= priority (threads st thread) ->
       Permutation (readySJFList st') (thread :: readySJFList st) /\
       readyRRList st' = readyRRList st /\
       readyPriorityList st' = readyPriorityList st) /\
    (priority (threads st thread) < SJF_SCHD_THRESHHOLD cfg ->
     PRI_SCHD_THRESHHOLD cfg <= priority (threads st thread) ->
       readyRRList st' = readyRRList st ++ [thread] /\
       readySJFList st' = readySJFList st /\
       readyPriorityList st' = readyPriorityList st) /\
    (priority (threads st thread) < SJF_SCHD_THRESHHOLD cfg ->
     priority (threads st thread) < PRI_SCHD_THRESHHOLD cfg ->
       Permutation (readyPriorityList st') (thread :: readyPriorityList st) /\
       readySJFList st' = readySJFList st /\
       readyRRList st' = readyRRList st).
Proof.
  intros Hl. exists (readied cfg thread st).
  split; [apply ReadyToRun_off, Hl|].
  pose proof (readied_getList cfg thread st QSJF) as G1.
  pose proof (readied_getList cfg thread st QRR) as G2.
  pose proof (readied_getList cfg thread st QPri) as G3.
  change (getList QSJF (readied cfg thread st))
    with (readySJFList (readied cfg thread st)) in G1.
  change (getList QRR (readied cfg thread st))
    with (readyRRList (readied cfg thread st)) in G2.
  change (getList QPri (readied cfg thread st))
    with (readyPriorityList (readied cfg thread st)) in G3.
  split; [rewrite readied_threads, Nat.eqb_refl; reflexivity|].
  split; [rewrite readied_threads, Nat.eqb_refl; reflexivity|].
  split; [apply readied_priority|].
  split.
  { intros x Hx. rewrite readied_threads.
    apply Nat.eqb_neq in Hx. rewrite Hx. reflexivity. }
  rewrite G1, G2, G3. unfold bandOf. rewrite !Z.geb_leb.
  split; [|split].
  - intros H. apply Z.leb_le in H. rewrite H. simpl.
    split; [apply Insert_perm|split; reflexivity].
  - intros H H0. apply Z.leb_gt in H. apply Z.leb_le in H0. rewrite H, H0. simpl.
    repeat split; reflexivity.
  - intros H H0. apply Z.leb_gt in H. apply Z.leb_gt in H0. rewrite H, H0. simpl.
    split; [apply Insert_perm|split; reflexivity].
Qed.

Lemma ReadyToRun_effect_witness :
  exists st',
    ReadyToRun sampleConfig 4%nat sampleBoot = Ok tt st' /\
    status (threads st' 4%nat) = READY /\
    readyRRList st' = [4%nat] /\ readySJFList st' = [] /\ readyPriorityList st' = [].
Proof.
  destruct (ReadyToRun_effect sampleConfig 4%nat sampleBoot)
    as (st' & E & Hs & _ & _ & _ & _ & Hrr & _).
  - reflexivity.
  - exists st'. split; [exact E|]. split; [exact Hs|].
    apply Hrr; vm_compute; [reflexivity|discriminate].
Defined.

(** C4 (aging).  With interrupts off and the ready lists partitioned, the
    call of [aging] that opens [FindNextToRun] returns in a state [st1], in
    which the selection then takes place.  A thread of the Priority queue
    that has waited [AGING_TICKS] or more has had its priority raised by
    exactly [PRIORITY_AGING] and its ready-since stamp set to the current
    tick, and is in [st1] on the list of the band of its new priority; a
    thread that has waited less is unchanged and still on the Priority
    list.  The lists of [st1] are partitioned again, and the Priority list
    is in descending order of priority if it was before. *)
Theorem aging_boosts cfg st :
  PRI_SCHD_THRESHHOLD cfg < SJF_SCHD_THRESHHOLD cfg ->
  level st = IntOff ->
  Partition cfg st ->
  exists st1,
    aging cfg QPri st = Ok tt st1 /\
    FindNextToRun cfg st = selectNext st1 /\
    Partition cfg st1 /\
    (StronglySorted (byPriority (threads st)) (readyPriorityList st) ->
     StronglySorted (byPriority (threads st1)) (readyPriorityList st1)) /\
    forall t, In t (readyPriorityList st) ->
      (AGING_TICKS cfg <= totalTicks st - startReadyTime (threads st t) ->
         priority (threads st1 t) = priority (threads st t) + PRIORITY_AGING cfg /\
         startReadyTime (threads st1 t) = totalTicks st /\
         (SJF_SCHD_THRESHHOLD cfg <= priority (threads st1 t) ->
            In t (readySJFList st1)) /\
         (PRI_SCHD_THRESHHOLD cfg <= priority (threads st1 t) < SJF_SCHD_THRESHHOLD cfg ->
            In t (readyRRList st1)) /\
         (priority (threads st1 t) < PRI_SCHD_THRESHHOLD cfg ->
            In t (readyPriorityList st1))) /\
      (totalTicks st - startReadyTime (threads st t) < AGING_TICKS cfg ->
         threads st1 t = threads st t /\ In t (readyPriorityList st1)).
Proof.
  intros Hord Hl P.
  destruct (Aging_loop cfg st (NoDup_getList QPri st (part_once _ _ P)))
    as (sA & EA & A).
  destruct (Aging_wellformed cfg st sA P A) as [Hnd Hready].
  assert (HlA : level sA = IntOff) by (rewrite (ag_level _ _ _ _ A); exact Hl).
  destruct (processMoving_Sweep cfg sA HlA Hnd) as (st1 & E1 & S).
  assert (Eaging : aging cfg QPri st = Ok tt st1).
  { rewrite aging_Pri_loops. unfold bind. rewrite EA. exact E1. }
  assert (P1 : Partition cfg st1) by (apply (Sweep_Partition cfg sA st1); assumption).
  assert (Hin : forall t, In t (readyPriorityList st) -> In t (allReady st1)).
  { intros t Ht.
    apply (Permutation_in _ (Permutation_sym (sw_perm _ _ _ _ S))).
    apply (Permutation_in _ (Permutation_sym (Aging_allReady cfg st sA A))).
    apply (In_getList_allReady QPri). exact Ht. }
  exists st1. split; [exact Eaging|].
  split.
  { rewrite FindNextToRun_off by exact Hl. unfold bind. rewrite Eaging. reflexivity. }
  split; [exact P1|].
  split.
  { intros Hs. apply (sw_sorted _ _ _ _ S), (ag_sorted _ _ _ _ A), Hs. }
  intros t Ht.
  assert (HtA : threads sA t = agedThread cfg (totalTicks st) (threads st t)).
  { apply (ag_done _ _ _ _ A); [exact Ht|intros []]. }
  split.
  - (* the thread has waited long enough *)
    intros Hw. unfold agedThread in HtA.
    apply Z.ge_le_iff in Hw. apply Z.geb_ge in Hw. rewrite Hw in HtA.
    assert (Hp : priority (threads st1 t) = priority (threads st t) + PRIORITY_AGING cfg).
    { rewrite (Sweep_priority cfg sA _ st1 t S), HtA. simpl. lia. }
    split; [exact Hp|].
    split.
    + destruct (sw_touch _ _ _ _ S t) as [E|E]; rewrite E.
      * rewrite HtA. reflexivity.
      * simpl. apply (ag_ticks _ _ _ _ A).
    + apply Partition_located; [exact Hord|exact P1|apply Hin, Ht].
  - (* the thread has not *)
    intros Hw. unfold agedThread in HtA.
    assert (Hw' : (totalTicks st - startReadyTime (threads st t) >=? AGING_TICKS cfg) = false).
    { rewrite Z.geb_leb. apply Z.leb_gt. exact Hw. }
    rewrite Hw' in HtA.
    assert (Hband : priority (threads st t) < PRI_SCHD_THRESHHOLD cfg).
    { apply (part_band _ _ P QPri t Ht). }
    assert (Hsame : threads st1 t = threads st t).
    { rewrite <- HtA. apply (sw_frame _ _ _ _ S).
      intros q Hq. rewrite HtA.
      assert (q = QPri).
      { destruct q; [exfalso|reflexivity|exfalso].
        - simpl in Hq. rewrite (ag_RR _ _ _ _ A) in Hq.
          assert (QRR = QPri) by
            (apply (NoDup_two_lists QRR QPri st t (part_once _ _ P)); assumption).
          discriminate.
        - simpl in Hq. rewrite (ag_SJF _ _ _ _ A) in Hq.
          assert (QSJF = QPri) by
            (apply (NoDup_two_lists QSJF QPri st t (part_once _ _ P)); assumption).
          discriminate. }
      subst q. exact Hband. }
    split; [exact Hsame|].
    apply (Partition_located cfg st1 t Hord P1 (Hin t Ht)).
    rewrite Hsame. exact Hband.
Qed.

Lemma aging_boosts_witness :
  exists st1,
    aging sampleConfig QPri sampleLater = Ok tt st1 /\
    FindNextToRun sampleConfig sampleLater = selectNext st1 /\
    priority (threads st1 5%nat) = 55 /\
    startReadyTime (threads st1 5%nat) = 2000 /\
    In 5%nat (readyRRList st1) /\
    priority (threads st1 6%nat) = 30 /\
    In 6%nat (readyPriorityList st1).
Proof.
  destruct (aging_boosts sampleConfig sampleLater) as (st1 & E & F & P & _ & H).
  - simpl. lia.
  - vm_compute. reflexivity.
  - apply reachable_Partition, sampleLater_reachable.
  - exists st1. split; [exact E|]. split; [exact F|].
    destruct (H 5%nat) as [(H1 & H2 & _ & H3 & _) _].
    { vm_compute. left. reflexivity. }
    { vm_compute. discriminate. }
    destruct (H 6%nat) as [(H4 & _ & _ & _ & H5) _].
    { vm_compute. right. left. reflexivity. }
    { vm_compute. discriminate. }
    split; [exact H1|]. split; [exact H2|].
    split; [apply H3; rewrite H1; vm_compute; split; [discriminate|reflexivity]|].
    split; [exact H4|].
    apply H5. rewrite H4. vm_compute. reflexivity.
Defined.



(** C6, as stated: called with interrupts enabled, every entry point stops
    on its assertion.  [Run] does not when it is handed the thread that is
    running: it returns before it reaches the assertion. *)
Lemma entry_points_assert_counterexample :
  level sampleOn = IntOn /\
  currentThread sampleOn = 0%nat /\
  Run 0%nat true sampleOn = Ok tt sampleOn.
Proof. vm_compute. repeat split. Qed.

(** C6, amended.  Called with interrupts enabled, [ReadyToRun],
    [FindNextToRun], and [Run] for a thread other than the running one,
    stop on the assertion before any write; [Run] for the running thread
    returns at once.  In all four cases the state is the one of the call:
    no list and no thread has been written. *)
Theorem entry_points_interrupts_enabled cfg st :
  level st = IntOn ->
  (forall thread, ReadyToRun cfg thread st = Stop AssertionFailed st) /\
  FindNextToRun cfg st = Stop AssertionFailed st /\
  (forall nextThread finishing, nextThread <> currentThread st ->
     Run nextThread finishing st = Stop AssertionFailed st) /\
  (forall finishing, Run (currentThread st) finishing st = Ok tt st).
Proof.
  intros Hl. repeat split.
  - intros thread. apply ReadyToRun_on, Hl.
  - apply FindNextToRun_on, Hl.
  - intros nextThread finishing Hne. apply Run_on; assumption.
  - intros finishing. apply Run_same_thread.
Qed.

Lemma entry_points_interrupts_enabled_witness :
  (forall thread, ReadyToRun sampleConfig thread sampleOn = Stop AssertionFailed sampleOn) /\
  FindNextToRun sampleConfig sampleOn = Stop AssertionFailed sampleOn /\
  (forall nextThread finishing, nextThread <> currentThread sampleOn ->
     Run nextThread finishing sampleOn = Stop AssertionFailed sampleOn) /\
  (forall finishing, Run (currentThread sampleOn) finishing sampleOn = Ok tt sampleOn).
Proof.
  apply (entry_points_interrupts_enabled sampleConfig sampleOn). reflexivity.
Defined.

(** C7 (burst estimate).  When [Run] dispatches a thread other than the
    running one -- interrupts off, the destruction slot free if the running
    thread is finishing, its stack intact -- the call reaches [SWITCH] with
    the burst estimate of the outgoing thread set to
    [0.5 * ((now - startBurst) + previous estimate)], computed in binary64
    from the [int] difference, and with the burst start of the incoming
    thread set to [now], the current tick. *)
Theorem Run_burst_estimate nextThread finishing st :
  nextThread <> currentThread st ->
  level st = IntOff ->
  (finishing = true -> toBeDestroyed st = None) ->
  stackIntact (threads st (currentThread st)) = true ->
  exists st',
    Run nextThread finishing st = Ok tt st' /\
    burstTime (threads st' (currentThread st)) =
      PrimFloat.mul 0.5%float
        (PrimFloat.add
           (double_of_int (totalTicks st - startBurst (threads st (currentThread st))))
           (burstTime (threads st (currentThread st)))) /\
    startBurst (threads st' nextThread) = totalTicks st /\
    currentThread st' = nextThread /\
    status (threads st' nextThread) = RUNNING.
Proof.
  intros Hne Hl Hfin Hs.
  destruct (Run_dispatch nextThread finishing st Hne Hl Hfin Hs)
    as (st' & E & Hb & Hsb & Hst & Hc & _).
  exists st'. repeat split; assumption.
Qed.

Lemma Run_burst_estimate_witness :
  exists st',
    Run 5%nat false sampleLater = Ok tt st' /\
    burstTime (threads st' 0%nat) = 1000%float /\
    startBurst (threads st' 5%nat) = 2000.
Proof.
  destruct (Run_burst_estimate 5%nat false sampleLater) as (st' & E & Hb & Hs & _).
  - vm_compute. discriminate.
  - vm_compute. reflexivity.
  - discriminate.
  - vm_compute. reflexivity.
  - assert (C : currentThread sampleLater = 0%nat) by (vm_compute; reflexivity).
    rewrite C in Hb.
    exists st'. split; [exact E|]. split.
    + rewrite Hb. vm_compute. reflexivity.
    + rewrite Hs. vm_compute. reflexivity.
Defined.

(** C8 (same-thread dispatch).  In every state and for either value of
    [finishing], [Run] for the running thread returns in the very state of
    the call: lists, thread fields, current thread, destruction slot and
    trace are as they were, so no hook -- [SWITCH] in particular -- was
    called. *)
Theorem Run_same_thread_noop finishing st :
  Run (currentThread st) finishing st = Ok tt st.
Proof.
  unfold Run, bind, gets. rewrite Nat.eqb_refl. reflexivity.
Qed.

(** C9 (same-thread dispatch of a finishing thread).  [Run] for the running
    thread with [finishing] set returns whatever the interrupt level and
    whatever the destruction slot holds: the return comes before the
    assertion on the interrupt level and before the slot is looked at, and
    the slot is left as it was, the running thread not recorded in it.  For
    any other thread the same call does check the interrupt level, and with
    interrupts off and the slot free it does record the running thread. *)
Theorem Run_same_thread_finishing_dropped st lvl slot :
  let st0 := mkState (threads st) (readyRRList st) (readyPriorityList st)
               (readySJFList st) slot (currentThread st) (totalTicks st) lvl (trace st) in
  (exists st',
     Run (currentThread st0) true st0 = Ok tt st' /\
     toBeDestroyed st' = slot /\
     level st' = lvl /\
     trace st' = trace st) /\
  (forall nextThread, nextThread <> currentThread st0 -> lvl = IntOn ->
     Run nextThread true st0 = Stop AssertionFailed st0) /\
  (forall nextThread, nextThread <> currentThread st0 -> lvl = IntOff ->
     slot = None -> stackIntact (threads st (currentThread st)) = true ->
     exists st', Run nextThread true st0 = Ok tt st' /\
                 toBeDestroyed st' = Some (currentThread st)).
Proof.
  intros st0. split; [|split].
  - exists st0. split; [apply Run_same_thread|].
    repeat split; reflexivity.
  - intros nextThread Hne Hl. apply Run_on; [exact Hne|exact Hl].
  - intros nextThread Hne Hl Hslot Hstack.
    destruct (Run_dispatch nextThread true st0 Hne Hl (fun _ => Hslot) Hstack)
      as (st' & E & _ & _ & _ & _ & _ & _ & _ & Hd).
    exists st'. split; [exact E|exact Hd].
Qed.

(** C10 (no membership check).  With interrupts off, [ReadyToRun] for a
    thread that is already on a ready list returns, having put one more
    reference to it on the list its current priority selects: the ready
    lists then hold the references they held and one more, so the thread is
    referenced twice or more. *)
Theorem ReadyToRun_second_reference cfg thread st :
  level st = IntOff ->
  In thread (allReady st) ->
  exists st',
    ReadyToRun cfg thread st = Ok tt st' /\
    Permutation (allReady st') (thread :: allReady st) /\
    (2 <= count_occ Nat.eq_dec (allReady st') thread)%nat /\
    Permutation (getList (bandOf cfg (priority (threads st thread))) st')
      (thread :: getList (bandOf cfg (priority (threads st thread))) st).
Proof.
  intros Hl Hin. exists (readied cfg thread st).
  split; [apply ReadyToRun_off, Hl|].
  split; [apply readied_allReady|].
  split.
  - pose proof (proj1 (Permutation_count_occ Nat.eq_dec _ _)
                  (readied_allReady cfg thread st) thread) as E.
    rewrite E. simpl. destruct (Nat.eq_dec thread thread); [|congruence].
    apply (count_occ_In Nat.eq_dec) in Hin. lia.
  - rewrite readied_getList, Queue_eqb_refl. apply appended_perm.
Qed.

Lemma ReadyToRun_second_reference_witness :
  exists st',
    ReadyToRun sampleConfig 4%nat sampleQueued = Ok tt st' /\
    readyRRList sampleQueued = [4%nat] /\
    Permutation (allReady st') [4; 4]%nat.
Proof.
  destruct (ReadyToRun_second_reference sampleConfig 4%nat sampleQueued)
    as (st' & E & Hp & _).
  - vm_compute. reflexivity.
  - vm_compute. left. reflexivity.
  - exists st'. split; [exact E|]. split; [vm_compute; reflexivity|exact Hp].
Defined.

(** * Further properties of the code *)

(** ** What the calls leave alone *)

Lemma schedFrame_refl s : schedFrame s s.
Proof. unfold schedFrame. repeat split; reflexivity. Qed.

Lemma schedFrame_trans s1 s2 s3 :
  schedFrame s1 s2 -> schedFrame s2 s3 -> schedFrame s1 s3.
Proof.
  intros (A1 & A2 & A3 & A4 & A5) (B1 & B2 & B3 & B4 & B5).
  unfold schedFrame. repeat split; try congruence;
    destruct (A5 x) as (E1 & E2 & E3 & E4);
    destruct (B5 x) as (F1 & F2 & F3 & F4); congruence.
Qed.

Lemma forEach_rel (R : state -> state -> Prop) (body : ThreadPtr -> M unit) :
  (forall s, R s s) ->
  (forall s1 s2 s3, R s1 s2 -> R s2 s3 -> R s1 s3) ->
  (forall t s s', body t s = Ok tt s' -> R s s') ->
  forall items s s', forEach items body s = Ok tt s' -> R s s'.
Proof.
  intros Hrefl Htrans Hbody. induction items as [|t rest IH]; intros s s' H.
  - simpl in H. inversion H; subst. apply Hrefl.
  - simpl in H. unfold bind in H.
    destruct (body t s) as [[] s1|] eqn:E; [|discriminate].
    apply Htrans with s1; [apply Hbody with t, E|apply IH, H].
Qed.

Lemma schedFrame_setList q l s : schedFrame s (setList q l s).
Proof. destruct q; unfold schedFrame; simpl; repeat split; reflexivity. Qed.

Section Frames.

Variable cfg : Config.

Lemma schedFrame_readied t s : schedFrame s (readied cfg t s).
Proof.
  unfold schedFrame.
  rewrite readied_level, readied_totalTicks.
  assert (E1 : currentThread (readied cfg t s) = currentThread s).
  { unfold readied. destruct (bandOf cfg (priority (threads s t))); reflexivity. }
  assert (E2 : toBeDestroyed (readied cfg t s) = toBeDestroyed s).
  { unfold readied. destruct (bandOf cfg (priority (threads s t))); reflexivity. }
  repeat split; try assumption;
    rewrite readied_threads; destruct (Nat.eqb x t); reflexivity.
Qed.

Lemma schedFrame_boosted t s :
  schedFrame s (boosted cfg QPri compare_by_priority t s).
Proof.
  unfold schedFrame. repeat split; try reflexivity;
    rewrite boosted_threads; destruct (Nat.eqb x t); reflexivity.
Qed.

Lemma requalifyBody_Ok q t s s' :
  requalifyBody cfg q t s = Ok tt s' ->
  s' = s \/ (level s = IntOff /\ s' = moved cfg q t s).
Proof.
  intros H. destruct (level s) eqn:Hl.
  - rewrite requalifyBody_off in H by exact Hl. inversion H as [E].
    destruct (outOfBand cfg q (priority (threads s t))); auto.
  - apply requalifyBody_on in H; [|exact Hl]. left. apply H.
Qed.

Lemma schedFrame_requalifyBody q t s s' :
  requalifyBody cfg q t s = Ok tt s' -> schedFrame s s'.
Proof.
  intros H. apply requalifyBody_Ok in H. destruct H as [->|[_ ->]].
  - apply schedFrame_refl.
  - unfold moved.
    apply schedFrame_trans with (setList q (Remove t (getList q s)) s).
    + apply schedFrame_setList.
    + apply schedFrame_readied.
Qed.

Lemma priority_requalifyBody q t s s' :
  requalifyBody cfg q t s = Ok tt s' ->
  forall x, priority (threads s' x) = priority (threads s x).
Proof.
  intros H x. apply requalifyBody_Ok in H. destruct H as [->|[_ ->]].
  - reflexivity.
  - apply moved_priority.
Qed.

Lemma processMoving_Ok_inv st st' :
  processMoving cfg st = Ok tt st' ->
  exists s1 s2,
    forEach (getList QSJF st) (requalifyBody cfg QSJF) st = Ok tt s1 /\
    forEach (getList QRR st) (requalifyBody cfg QRR) s1 = Ok tt s2 /\
    forEach (getList QPri st) (requalifyBody cfg QPri) s2 = Ok tt st'.
Proof.
  rewrite processMoving_loops. unfold bind.
  destruct (forEach (getList QSJF st) (requalifyBody cfg QSJF) st) as [[] s1|] eqn:E1;
    [|discriminate].
  destruct (forEach (getList QRR st) (requalifyBody cfg QRR) s1) as [[] s2|] eqn:E2;
    [|discriminate].
  intros E3. exists s1, s2. auto.
Qed.

Lemma schedFrame_processMoving st st' :
  processMoving cfg st = Ok tt st' -> schedFrame st st'.
Proof.
  intros H. apply processMoving_Ok_inv in H. destruct H as (s1 & s2 & E1 & E2 & E3).
  assert (L : forall q items s s',
            forEach items (requalifyBody cfg q) s = Ok tt s' -> schedFrame s s').
  { intros q. apply forEach_rel.
    - apply schedFrame_refl.
    - apply schedFrame_trans.
    - intros t s s'. apply schedFrame_requalifyBody. }
  apply schedFrame_trans with s1; [apply (L _ _ _ _ E1)|].
  apply schedFrame_trans with s2; [apply (L _ _ _ _ E2)|apply (L _ _ _ _ E3)].
Qed.

Lemma priority_processMoving st st' :
  processMoving cfg st = Ok tt st' ->
  forall x, priority (threads st' x) = priority (threads st x).
Proof.
  intros H. apply processMoving_Ok_inv in H. destruct H as (s1 & s2 & E1 & E2 & E3).
  assert (L : forall q items s s',
            forEach items (requalifyBody cfg q) s = Ok tt s' ->
            forall x, priority (threads s' x) = priority (threads s x)).
  { intros q.
    apply (forEach_rel
             (fun s s' => forall x, priority (threads s' x) = priority (threads s x))).
    - reflexivity.
    - intros a b c H1 H2 x. rewrite H2. apply H1.
    - intros t s s'. apply priority_requalifyBody. }
  intros x. rewrite (L _ _ _ _ E3), (L _ _ _ _ E2). apply (L _ _ _ _ E1).
Qed.

Lemma schedFrame_agingLoop items s s' :
  forEach items (agingBody cfg QPri) s = Ok tt s' -> schedFrame s s'.
Proof.
  apply forEach_rel.
  - apply schedFrame_refl.
  - apply schedFrame_trans.
  - intros t a b. rewrite agingBody_Pri. intros H. inversion H.
    destruct (_ >=? _); [apply schedFrame_boosted|apply schedFrame_refl].
Qed.

Lemma priority_agingLoop items : forall s s',
  forEach items (agingBody cfg QPri) s = Ok tt s' ->
  (forall x, ~ In x items -> priority (threads s' x) = priority (threads s x)) /\
  (0 <= PRIORITY_AGING cfg ->
   forall x, priority (threads s x) <= priority (threads s' x)).
Proof.
  induction items as [|t rest IH]; intros s s' H.
  - simpl in H. inversion H; subst. split; intros; [reflexivity|lia].
  - simpl in H. unfold bind in H. rewrite agingBody_Pri in H.
    apply IH in H. destruct H as [H1 H2]. split.
    + intros x Hx. rewrite H1 by (intros Hin; apply Hx; right; exact Hin).
      destruct (_ >=? _); [|reflexivity].
      rewrite boosted_threads.
      destruct (Nat.eqb x t) eqn:E; [|reflexivity].
      apply Nat.eqb_eq in E. subst. exfalso. apply Hx. left. reflexivity.
    + intros HA x. apply Z.le_trans with (2 := H2 HA x).
      destruct (_ >=? _); [|lia].
      rewrite boosted_threads.
      destruct (Nat.eqb x t) eqn:E; [|lia].
      apply Nat.eqb_eq in E. subst. simpl. lia.
Qed.

Lemma aging_Ok_inv st st' :
  aging cfg QPri st = Ok tt st' ->
  exists s1, forEach (readyPriorityList st) (agingBody cfg QPri) st = Ok tt s1 /\
             processMoving cfg s1 = Ok tt st'.
Proof.
  rewrite aging_Pri_loops. unfold bind.
  destruct (forEach (readyPriorityList st) (agingBody cfg QPri) st) as [[] s1|] eqn:E;
    [|discriminate].
  intros H. exists s1. auto.
Qed.

Lemma selectNext_Ok r st st' :
  selectNext st = Ok r st' ->
  (r = None /\ st' = st /\ allReady st = []) \/
  (exists t q rest, r = Some t /\ getList q st = t :: rest /\ st' = setList q rest st /\
     (q = QSJF \/
      (q = QRR /\ readySJFList st = []) \/
      (q = QPri /\ readySJFList st = [] /\ readyRRList st = []))).
Proof.
  rewrite selectNext_spec.
  destruct (readySJFList st) as [|t l] eqn:E1.
  - destruct (readyRRList st) as [|t l] eqn:E2.
    + destruct (readyPriorityList st) as [|t l] eqn:E3; intros H; inversion H; subst.
      * left. unfold allReady. rewrite E1, E2, E3. repeat split; reflexivity.
      * right. exists t, QPri, l.
        split; [reflexivity|]. split; [exact E3|]. split; [reflexivity|].
        right. right. auto.
    + intros H; inversion H; subst. right. exists t, QRR, l.
      split; [reflexivity|]. split; [exact E2|]. split; [reflexivity|].
      right. left. auto.
  - intros H; inversion H; subst. right. exists t, QSJF, l.
    split; [reflexivity|]. split; [exact E1|]. split; [reflexivity|].
    left. reflexivity.
Qed.

Lemma FindNextToRun_Ok_inv r st st' :
  FindNextToRun cfg st = Ok r st' ->
  level st = IntOff /\
  exists s1, aging cfg QPri st = Ok tt s1 /\ selectNext s1 = Ok r st'.
Proof.
  intros H. destruct (level st) eqn:Hl.
  - split; [reflexivity|].
    rewrite FindNextToRun_off in H by exact Hl. unfold bind in H.
    destruct (aging cfg QPri st) as [[] s1|] eqn:E; [|discriminate].
    exists s1. auto.
  - rewrite FindNextToRun_on in H by exact Hl. discriminate.
Qed.

End Frames.

(** ** The aging pass from a partitioned state *)

Lemma byBurst_ext th th' l :
  (forall x, burstTime (th' x) = burstTime (th x)) ->
  StronglySorted (byBurst th) l -> StronglySorted (byBurst th') l.
Proof.
  intros E H. induction H as [|a l Hs IH Hall]; constructor.
  - exact IH.
  - rewrite Forall_forall in *. intros x Hx. unfold byBurst. rewrite !E.
    apply Hall, Hx.
Qed.

Section AgingPass.

Variable cfg : Config.

Lemma moved_burstTime q t s x :
  burstTime (threads (moved cfg q t s) x) = burstTime (threads s x).
Proof. rewrite moved_threads. destruct (Nat.eqb x t); reflexivity. Qed.

Lemma moved_level q t s : level (moved cfg q t s) = level s.
Proof. unfold moved. rewrite readied_level. apply setList_level. Qed.

Lemma moved_Pri_RR t s :
  readyRRList (moved cfg QPri t s) =
  match bandOf cfg (priority (threads s t)) with
  | QRR => readyRRList s ++ [t]
  | _ => readyRRList s
  end.
Proof.
  pose proof (moved_getList cfg QPri t s QRR) as G.
  destruct (bandOf cfg (priority (threads s t))); exact G.
Qed.

Lemma moved_Pri_SJF t s :
  readySJFList (moved cfg QPri t s) =
  match bandOf cfg (priority (threads s t)) with
  | QSJF => Insert (compare_by_burst (threads (moved cfg QPri t s))) t (readySJFList s)
  | _ => readySJFList s
  end.
Proof.
  pose proof (moved_getList cfg QPri t s QSJF) as G.
  destruct (bandOf cfg (priority (threads s t))); exact G.
Qed.

Lemma Promotion_step sA t rest s :
  Promotion sA (t :: rest) s ->
  exists s', requalifyBody cfg QPri t s = Ok tt s' /\ Promotion sA rest s'.
Proof.
  intros P. rewrite (requalifyBody_off cfg QPri t s (pr_level _ _ _ P)).
  eexists. split; [reflexivity|].
  assert (Ht : In t (readyPriorityList sA)) by (apply (pr_rest _ _ _ P); left; reflexivity).
  destruct (outOfBand cfg QPri (priority (threads s t))) eqn:Eout.
  - constructor.
    + rewrite moved_level. apply (pr_level _ _ _ P).
    + intros x Hx. apply (pr_rest _ _ _ P). right. exact Hx.
    + destruct (pr_RR _ _ _ P) as (extra & E & Hex).
      rewrite moved_Pri_RR.
      destruct (bandOf cfg (priority (threads s t))).
      * exists (extra ++ [t]). split.
        -- rewrite E, app_assoc. reflexivity.
        -- intros x Hx. apply in_app_or in Hx. destruct Hx as [Hx|[<-|[]]];
             [apply Hex, Hx|exact Ht].
      * exists extra. split; [exact E|exact Hex].
      * exists extra. split; [exact E|exact Hex].
    + intros x. rewrite moved_Pri_SJF.
      destruct (bandOf cfg (priority (threads s t))).
      * apply (pr_SJF_in _ _ _ P).
      * apply (pr_SJF_in _ _ _ P).
      * intros Hx. apply Insert_In in Hx.
        destruct Hx as [->|Hx]; [right; exact Ht|apply (pr_SJF_in _ _ _ P), Hx].
    + intros x. rewrite moved_burstTime. apply (pr_burst _ _ _ P).
    + intros Hnan Hs0. specialize (pr_SJF_sorted _ _ _ P Hnan Hs0). intros Hs.
      assert (Hs' : StronglySorted (byBurst (threads (moved cfg QPri t s)))
                      (readySJFList s)).
      { apply byBurst_ext with (threads s); [|exact Hs].
        intros x. apply moved_burstTime. }
      assert (Hn : forall x, In x (readySJFList sA) \/ In x (readyPriorityList sA) ->
               PrimFloat.is_nan (burstTime (threads (moved cfg QPri t s) x)) = false).
      { intros x Hx. rewrite moved_burstTime, (pr_burst _ _ _ P).
        apply Hnan. apply in_or_app. exact Hx. }
      rewrite moved_Pri_SJF.
      destruct (bandOf cfg (priority (threads s t))); try exact Hs'.
      apply Insert_sorted_burst.
      * apply Hn. right. exact Ht.
      * intros y Hy. apply Hn, (pr_SJF_in _ _ _ P), Hy.
      * exact Hs'.
  - constructor; try apply P.
    intros x Hx. apply (pr_rest _ _ _ P). right. exact Hx.
Qed.

Lemma Promotion_start sA :
  level sA = IntOff -> Promotion sA (readyPriorityList sA) sA.
Proof.
  intros Hl. constructor; auto.
  exists []. split; [rewrite app_nil_r; reflexivity|intros t []].
Qed.

(** From a partitioned state with interrupts off: the state [sA] after the
    loop of [aging], and the state [st1] after [processMoving]. *)
Lemma aging_pass st :
  level st = IntOff -> Partition cfg st ->
  exists sA st1,
    Aging cfg st [] sA /\
    Sweep cfg sA (fun _ => []) st1 /\
    Promotion sA [] st1 /\
    aging cfg QPri st = Ok tt st1 /\
    Partition cfg st1.
Proof.
  intros Hl P.
  destruct (Aging_loop cfg st (NoDup_getList QPri st (part_once _ _ P)))
    as (sA & EA & A).
  destruct (Aging_wellformed cfg st sA P A) as [Hnd Hready].
  assert (HlA : level sA = IntOff) by (rewrite (ag_level _ _ _ _ A); exact Hl).
  destruct (processMoving_Sweep cfg sA HlA Hnd) as (st1 & E1 & S).
  exists sA, st1. split; [exact A|]. split; [exact S|].
  assert (Hkeep : forall q t, q <> QPri -> In t (getList q sA) ->
            inBand cfg q (priority (threads sA t))).
  { intros q t Hq Ht.
    assert (Ht0 : In t (getList q st)).
    { destruct q; simpl in *; [rewrite <- (ag_RR _ _ _ _ A)|congruence|
                               rewrite <- (ag_SJF _ _ _ _ A)]; exact Ht. }
    rewrite (ag_todo _ _ _ _ A).
    - apply (part_band _ _ P q t Ht0).
    - left. intros Hp. apply Hq.
      apply (NoDup_two_lists q QPri st t (part_once _ _ P)); assumption. }
  split; [|split].
  - (* the first two loops find nothing to move *)
    rewrite processMoving_loops in E1. unfold bind in E1.
    rewrite forEach_noop in E1.
    2:{ intros t Ht. apply requalifyBody_inBand. apply Hkeep; [discriminate|exact Ht]. }
    rewrite forEach_noop in E1.
    2:{ intros t Ht. apply requalifyBody_inBand. apply Hkeep; [discriminate|exact Ht]. }
    destruct (forEach_inv (Promotion sA) (requalifyBody cfg QPri))
      with (items := readyPriorityList sA) (st := sA) as (s' & E' & Pr).
    + intros t rest s. apply Promotion_step.
    + apply Promotion_start, HlA.
    + simpl getList in E1. rewrite E' in E1. inversion E1; subst. exact Pr.
  - rewrite aging_Pri_loops. unfold bind. rewrite EA. exact E1.
  - apply (Sweep_Partition cfg sA st1); assumption.
Qed.

Lemma aging_pass_perm st sA st1 :
  Aging cfg st [] sA -> Sweep cfg sA (fun _ => []) st1 ->
  Permutation (allReady st1) (allReady st).
Proof.
  intros A S. apply perm_trans with (allReady sA).
  - apply (sw_perm _ _ _ _ S).
  - apply (Aging_allReady cfg st sA A).
Qed.

Lemma Aging_burstTime st sA x :
  Aging cfg st [] sA -> burstTime (threads sA x) = burstTime (threads st x).
Proof.
  intros A.
  destruct (in_dec Nat.eq_dec x (readyPriorityList st)) as [Hx|Hx].
  - rewrite (ag_done _ _ _ _ A x Hx (fun H => H)). unfold agedThread.
    destruct (_ >=? _); reflexivity.
  - rewrite (ag_todo _ _ _ _ A x (or_introl Hx)). reflexivity.
Qed.

End AgingPass.

(** ** Requalification on its own *)

(** X1 (requalification repairs any placement).  With interrupts off,
    started in any state whose ready lists reference no thread twice --
    threads may sit on lists of a band that is not theirs -- [processMoving]
    returns; the lists then hold the same threads as before, no priority
    has changed, and every thread is on the list of the band of its
    priority. *)
Theorem processMoving_requalifies cfg st :
  level st = IntOff ->
  NoDup (allReady st) ->
  exists st',
    processMoving cfg st = Ok tt st' /\
    Permutation (allReady st') (allReady st) /\
    (forall x, priority (threads st' x) = priority (threads st x)) /\
    (forall t, In t (readySJFList st') ->
       SJF_SCHD_THRESHHOLD cfg <= priority (threads st' t)) /\
    (forall t, In t (readyRRList st') ->
       PRI_SCHD_THRESHHOLD cfg <= priority (threads st' t) < SJF_SCHD_THRESHHOLD cfg) /\
    (forall t, In t (readyPriorityList st') ->
       priority (threads st' t) < PRI_SCHD_THRESHHOLD cfg).
Proof.
  intros Hl Hnd.
  destruct (processMoving_Sweep cfg st Hl Hnd) as (st' & E & S).
  exists st'. split; [exact E|]. split; [apply (sw_perm _ _ _ _ S)|].
  split; [intros x; apply (Sweep_priority cfg st _ st' x S)|].
  assert (B : forall q t, In t (getList q st') ->
                inBand cfg q (priority (threads st' t))).
  { intros q t Ht. destruct (sw_band _ _ _ _ S q t Ht) as [[]|H]. exact H. }
  split; [|split]; intros t Ht.
  - apply (B QSJF t Ht).
  - apply (B QRR t Ht).
  - apply (B QPri t Ht).
Qed.

Lemma processMoving_requalifies_witness :
  (exists st',
     processMoving sampleConfig sampleMisplaced = Ok tt st' /\
     Permutation (allReady st') (allReady sampleMisplaced) /\
     (forall x, priority (threads st' x) = priority (threads sampleMisplaced x)) /\
     (forall t, In t (readySJFList st') -> 100 <= priority (threads st' t)) /\
     (forall t, In t (readyRRList st') -> 50 <= priority (threads st' t) < 100) /\
     (forall t, In t (readyPriorityList st') -> priority (threads st' t) < 50)) /\
  readySJFList (stateOf (processMoving sampleConfig sampleMisplaced)) = [1%nat] /\
  readyRRList (stateOf (processMoving sampleConfig sampleMisplaced)) = [4%nat] /\
  readyPriorityList (stateOf (processMoving sampleConfig sampleMisplaced)) = [5%nat].
Proof.
  split; [|vm_compute; repeat split; reflexivity].
  apply (processMoving_requalifies sampleConfig sampleMisplaced).
  - reflexivity.
  - vm_compute. repeat constructor; simpl; intuition discriminate.
Defined.

(** X2 (requalification is idempotent).  With interrupts off and no thread
    referenced twice, a second call of [processMoving] right after the first
    finds nothing to move: it returns in the state the first call returned
    in. *)
Theorem processMoving_idempotent cfg st :
  level st = IntOff ->
  NoDup (allReady st) ->
  exists st',
    processMoving cfg st = Ok tt st' /\
    processMoving cfg st' = Ok tt st'.
Proof.
  intros Hl Hnd.
  destruct (processMoving_Sweep cfg st Hl Hnd) as (st' & E & S).
  exists st'. split; [exact E|].
  apply processMoving_noop. intros q t Ht.
  destruct (sw_band _ _ _ _ S q t Ht) as [[]|H]. exact H.
Qed.

Lemma processMoving_idempotent_witness :
  exists st',
    processMoving sampleConfig sampleMisplaced = Ok tt st' /\
    processMoving sampleConfig st' = Ok tt st'.
Proof.
  apply (processMoving_idempotent sampleConfig sampleMisplaced).
  - reflexivity.
  - vm_compute. repeat constructor; simpl; intuition discriminate.
Defined.

(** X3 (requalification with interrupts enabled).  [processMoving] has no
    assertion of its own; the one it can run into is that of [ReadyToRun].
    Called with interrupts enabled it returns exactly when every thread is
    already on the list of its band, and then it has changed nothing; if
    some thread is misplaced the call does not return. *)
Theorem processMoving_interrupts_enabled cfg st :
  level st = IntOn ->
  (forall st', processMoving cfg st = Ok tt st' -> st' = st) /\
  (processMoving cfg st = Ok tt st <->
   forall q t, In t (getList q st) -> inBand cfg q (priority (threads st t))).
Proof.
  intros Hl. split.
  - intros st' H. apply (processMoving_on cfg st st' Hl H).
  - split.
    + intros H. apply (processMoving_on cfg st st Hl H).
    + apply processMoving_noop.
Qed.

Lemma processMoving_interrupts_enabled_witness :
  processMoving sampleConfig sampleQueuedOn = Ok tt sampleQueuedOn /\
  processMoving sampleConfig sampleMisplacedOn
    = Stop AssertionFailed (stateOf (processMoving sampleConfig sampleMisplacedOn)) /\
  readySJFList (stateOf (processMoving sampleConfig sampleMisplacedOn)) = [].
Proof.
  split; [|vm_compute; split; reflexivity].
  apply (processMoving_interrupts_enabled sampleConfig sampleQueuedOn).
  - reflexivity.
  - intros q t. destruct q; simpl; intros H; try contradiction.
    destruct H as [<-|[]]. vm_compute. split; [discriminate|reflexivity].
Defined.

(** ** Selection, seen from the caller *)

Lemma allReady_front q t rest st :
  getList q st = t :: rest ->
  Permutation (allReady st) (t :: allReady (setList q rest st)).
Proof.
  intros Hq. unfold allReady. destruct q; simpl in *; rewrite Hq.
  - apply Permutation_sym, Permutation_middle.
  - rewrite !app_assoc. apply Permutation_sym, Permutation_middle.
  - apply Permutation_refl.
Qed.

Lemma selectNext_returns st : exists r st', selectNext st = Ok r st'.
Proof.
  rewrite selectNext_spec.
  destruct (readySJFList st); [|eauto].
  destruct (readyRRList st); [|eauto].
  destruct (readyPriorityList st); eauto.
Qed.

Lemma FindNextToRun_pass cfg st :
  level st = IntOff -> Partition cfg st ->
  exists sA st1,
    Aging cfg st [] sA /\ Sweep cfg sA (fun _ => []) st1 /\ Promotion sA [] st1 /\
    aging cfg QPri st = Ok tt st1 /\ Partition cfg st1 /\
    FindNextToRun cfg st = selectNext st1.
Proof.
  intros Hl P. destruct (aging_pass cfg st Hl P) as (sA & st1 & A & S & Pr & E & P1).
  exists sA, st1. repeat (split; [assumption|]).
  rewrite FindNextToRun_off by exact Hl. unfold bind. rewrite E. reflexivity.
Qed.

(** X4 (nothing ready).  With interrupts off, [FindNextToRun] on a
    scheduler whose three lists are empty returns NULL and leaves the state
    as it is; and from a partitioned state it returns NULL only then. *)
Theorem FindNextToRun_NULL cfg st :
  level st = IntOff ->
  Partition cfg st ->
  (allReady st = [] -> FindNextToRun cfg st = Ok None st) /\
  (forall st', FindNextToRun cfg st = Ok None st' -> allReady st = []).
Proof.
  intros Hl P. split.
  - intros He.
    assert (E1 : readySJFList st = [] /\ readyRRList st = [] /\ readyPriorityList st = []).
    { unfold allReady in He. apply app_eq_nil in He. destruct He as [H1 H2].
      apply app_eq_nil in H2. tauto. }
    destruct E1 as (E1 & E2 & E3).
    rewrite (FindNextToRun_quiescent cfg st Hl E3).
    + rewrite selectNext_spec, E1, E2, E3. reflexivity.
    + intros q t Ht. apply In_getList_allReady in Ht. rewrite He in Ht. destruct Ht.
  - intros st' H.
    destruct (FindNextToRun_pass cfg st Hl P) as (sA & st1 & A & S & _ & _ & _ & F).
    rewrite F in H. apply selectNext_Ok in H.
    destruct H as [(_ & _ & He)|(t & q & rest & Hr & _)]; [|discriminate].
    apply Permutation_nil. rewrite <- He.
    apply (aging_pass_perm cfg st sA st1 A S).
Qed.

Lemma FindNextToRun_NULL_witness :
  (allReady sampleBoot = [] -> FindNextToRun sampleConfig sampleBoot = Ok None sampleBoot) /\
  (forall st', FindNextToRun sampleConfig sampleBoot = Ok None st' ->
     allReady sampleBoot = []).
Proof.
  apply (FindNextToRun_NULL sampleConfig sampleBoot).
  - reflexivity.
  - apply Partition_init. reflexivity.
Defined.

(** X5 (exactly one thread is taken).  From a partitioned state, when
    [FindNextToRun] returns a thread, the ready lists hold afterwards the
    threads they held before except that one, which is on no list any more
    and still has the status [READY]; the lists are partitioned again. *)
Theorem FindNextToRun_takes_one cfg st t st' :
  Partition cfg st ->
  FindNextToRun cfg st = Ok (Some t) st' ->
  Permutation (allReady st) (t :: allReady st') /\
  ~ In t (allReady st') /\
  status (threads st' t) = READY /\
  Partition cfg st'.
Proof.
  intros P H.
  destruct (FindNextToRun_Ok_inv cfg _ _ _ H) as [Hl _].
  destruct (FindNextToRun_pass cfg st Hl P) as (sA & st1 & A & S & _ & _ & P1 & F).
  rewrite F in H.
  pose proof (selectNext_Partition cfg st1 _ st' P1 H) as P'.
  apply selectNext_Ok in H.
  destruct H as [(Hr & _)|(u & q & rest & Hr & Hq & -> & _)]; [discriminate|].
  inversion Hr; subst u.
  pose proof (allReady_front q t rest st1 Hq) as Hp.
  assert (Hnd : NoDup (t :: allReady (setList q rest st1))).
  { apply (Permutation_NoDup Hp). apply (part_once _ _ P1). }
  split; [|split; [|split]].
  - apply perm_trans with (allReady st1); [|exact Hp].
    apply Permutation_sym, (aging_pass_perm cfg st sA st1 A S).
  - inversion Hnd; assumption.
  - rewrite setList_threads. apply (part_ready _ _ P1 q t).
    rewrite Hq. left. reflexivity.
  - exact P'.
Qed.

Lemma FindNextToRun_takes_one_witness :
  Permutation (allReady sampleLater) (5%nat :: allReady sampleSelected) /\
  ~ In 5%nat (allReady sampleSelected) /\
  status (threads sampleSelected 5%nat) = READY /\
  Partition sampleConfig sampleSelected.
Proof.
  apply (FindNextToRun_takes_one sampleConfig sampleLater 5%nat sampleSelected).
  - apply reachable_Partition, sampleLater_reachable.
  - vm_compute. reflexivity.
Defined.

(** X6 (band priority).  From a partitioned state, with the thresholds in
    order, no thread left on the ready lists is in a higher band than the
    thread [FindNextToRun] returns: if the returned thread is below
    [SJF_SCHD_THRESHHOLD] so is every thread left, and if it is below
    [PRI_SCHD_THRESHHOLD] so is every thread left. *)
Theorem FindNextToRun_band_priority cfg st t st' :
  PRI_SCHD_THRESHHOLD cfg < SJF_SCHD_THRESHHOLD cfg ->
  Partition cfg st ->
  FindNextToRun cfg st = Ok (Some t) st' ->
  forall u, In u (allReady st') ->
    (priority (threads st' t) < SJF_SCHD_THRESHHOLD cfg ->
     priority (threads st' u) < SJF_SCHD_THRESHHOLD cfg) /\
    (priority (threads st' t) < PRI_SCHD_THRESHHOLD cfg ->
     priority (threads st' u) < PRI_SCHD_THRESHHOLD cfg).
Proof.
  intros Hord P H u Hu.
  destruct (FindNextToRun_Ok_inv cfg _ _ _ H) as [Hl _].
  destruct (FindNextToRun_pass cfg st Hl P) as (sA & st1 & _ & _ & _ & _ & P1 & F).
  rewrite F in H. apply selectNext_Ok in H.
  destruct H as [(Hr & _)|(v & q & rest & Hr & Hq & -> & Hcase)]; [discriminate|].
  inversion Hr; subst v.
  rewrite !setList_threads.
  assert (Ht : inBand cfg q (priority (threads st1 t))).
  { apply (part_band _ _ P1 q t). rewrite Hq. left. reflexivity. }
  apply In_allReady in Hu. destruct Hu as (q' & Hu).
  assert (Hu1 : In u (getList q' st1)).
  { rewrite getList_setList in Hu. destruct (Queue_eqb q' q) eqn:E; [|exact Hu].
    apply Queue_eqb_eq in E. subst q'. rewrite Hq. right. exact Hu. }
  pose proof (part_band _ _ P1 q' u Hu1) as Hb.
  destruct Hcase as [->|[(-> & E1)|(-> & E1 & E2)]]; simpl in Ht.
  - split; intros; lia.
  - destruct q'; simpl in Hb, Hu1; [|split; intros; lia|rewrite E1 in Hu1; destruct Hu1].
    split; intros; lia.
  - destruct q'; simpl in Hb, Hu1;
      [rewrite E2 in Hu1; destruct Hu1|split; intros; lia|rewrite E1 in Hu1; destruct Hu1].
Qed.

Lemma FindNextToRun_band_priority_witness :
  FindNextToRun sampleConfig sampleLater = Ok (Some 5%nat) sampleSelected /\
  allReady sampleSelected = [6%nat] /\
  forall u, In u (allReady sampleSelected) ->
    (priority (threads sampleSelected 5%nat) < 100 ->
     priority (threads sampleSelected u) < 100) /\
    (priority (threads sampleSelected 5%nat) < 50 ->
     priority (threads sampleSelected u) < 50).
Proof.
  split; [vm_compute; reflexivity|]. split; [vm_compute; reflexivity|].
  apply (FindNextToRun_band_priority sampleConfig sampleLater 5%nat sampleSelected).
  - simpl. lia.
  - apply reachable_Partition, sampleLater_reachable.
  - vm_compute. reflexivity.
Defined.

(** X7 (round trip on an idle scheduler).  With interrupts off and nothing
    ready, a thread handed to [ReadyToRun] is the thread the next call of
    [FindNextToRun] returns, whatever its priority, and the lists are empty
    again afterwards. *)
Theorem ReadyToRun_FindNextToRun cfg st t :
  level st = IntOff ->
  allReady st = [] ->
  exists s1 s2,
    ReadyToRun cfg t st = Ok tt s1 /\
    FindNextToRun cfg s1 = Ok (Some t) s2 /\
    allReady s2 = [].
Proof.
  intros Hl He.
  assert (P1 : Partition cfg (readied cfg t st)).
  { apply (Partition_ReadyToRun cfg st t).
    - apply Partition_init, He.
    - rewrite He. intros [].
    - apply ReadyToRun_off, Hl. }
  assert (Hl1 : level (readied cfg t st) = IntOff) by (rewrite readied_level; exact Hl).
  destruct (FindNextToRun_pass cfg _ Hl1 P1) as (sA & st1 & A & S & _ & _ & _ & F).
  assert (Hp : Permutation (allReady st1) [t]).
  { apply perm_trans with (allReady (readied cfg t st)).
    - apply (aging_pass_perm cfg _ sA st1 A S).
    - pose proof (readied_allReady cfg t st) as R. rewrite He in R. exact R. }
  destruct (selectNext_returns st1) as (r & s2 & E).
  exists (readied cfg t st), s2.
  split; [apply ReadyToRun_off, Hl|].
  rewrite F, E. apply selectNext_Ok in E.
  destruct E as [(_ & _ & E0)|(u & q & rest & -> & Hq & -> & _)].
  - rewrite E0 in Hp. apply Permutation_nil in Hp. discriminate.
  - pose proof (allReady_front q u rest st1 Hq) as Hf.
    assert (Hp' : Permutation [t] (u :: allReady (setList q rest st1))).
    { apply perm_trans with (allReady st1); [apply Permutation_sym, Hp|exact Hf]. }
    pose proof (Permutation_length Hp') as Hlen. simpl in Hlen.
    destruct (allReady (setList q rest st1)) eqn:Er; [|discriminate].
    apply Permutation_length_1 in Hp'. subst u. split; reflexivity.
Qed.

Lemma ReadyToRun_FindNextToRun_witness :
  exists s1 s2,
    ReadyToRun sampleConfig 5%nat sampleBoot = Ok tt s1 /\
    FindNextToRun sampleConfig s1 = Ok (Some 5%nat) s2 /\
    allReady s2 = [].
Proof.
  apply (ReadyToRun_FindNextToRun sampleConfig sampleBoot 5%nat); reflexivity.
Defined.

(** ** Order within a band *)

(** X8 (first in, first out in the Round-Robin band).  From a partitioned
    state with interrupts off, the aging pass of [FindNextToRun] leaves the
    threads of the Round-Robin list in front, in their order; the threads it
    promotes from the Priority list go behind them.  The selection then
    works on that list. *)
Theorem aging_keeps_RoundRobin_order cfg st :
  level st = IntOff ->
  Partition cfg st ->
  exists st1 promoted,
    aging cfg QPri st = Ok tt st1 /\
    FindNextToRun cfg st = selectNext st1 /\
    readyRRList st1 = readyRRList st ++ promoted /\
    forall t, In t promoted -> In t (readyPriorityList st).
Proof.
  intros Hl P.
  destruct (FindNextToRun_pass cfg st Hl P) as (sA & st1 & A & S & Pr & E & _ & F).
  destruct (pr_RR _ _ _ Pr) as (extra & Er & Hex).
  exists st1, extra. split; [exact E|]. split; [exact F|]. split.
  - rewrite Er, (ag_RR _ _ _ _ A). reflexivity.
  - intros t Ht. apply (Permutation_in _ (ag_perm _ _ _ _ A)). apply Hex, Ht.
Qed.

Lemma aging_keeps_RoundRobin_order_witness :
  exists st1 promoted,
    aging sampleConfig QPri sampleLater = Ok tt st1 /\
    FindNextToRun sampleConfig sampleLater = selectNext st1 /\
    readyRRList st1 = readyRRList sampleLater ++ promoted /\
    forall t, In t promoted -> In t (readyPriorityList sampleLater).
Proof.
  apply (aging_keeps_RoundRobin_order sampleConfig sampleLater).
  - vm_compute. reflexivity.
  - apply reachable_Partition, sampleLater_reachable.
Defined.

Lemma sorted_aging cfg st st' :
  Partition cfg st ->
  StronglySorted (byPriority (threads st)) (readyPriorityList st) ->
  aging cfg QPri st = Ok tt st' ->
  StronglySorted (byPriority (threads st')) (readyPriorityList st').
Proof.
  intros P Hs H.
  destruct (level st) eqn:Hl.
  - destruct (aging_pass cfg st Hl P) as (sA & st1 & A & S & _ & E & _).
    rewrite E in H. inversion H; subst st'.
    apply (sw_sorted _ _ _ _ S), (ag_sorted _ _ _ _ A), Hs.
  - destruct (Aging_loop cfg st (NoDup_getList QPri st (part_once _ _ P)))
      as (sA & EA & A).
    rewrite aging_Pri_loops in H. unfold bind in H. rewrite EA in H.
    apply processMoving_on in H.
    + destruct H as [-> _]. apply (ag_sorted _ _ _ _ A), Hs.
    + rewrite (ag_level _ _ _ _ A). exact Hl.
Qed.

Lemma sorted_selectNext r st st' :
  StronglySorted (byPriority (threads st)) (readyPriorityList st) ->
  selectNext st = Ok r st' ->
  StronglySorted (byPriority (threads st')) (readyPriorityList st').
Proof.
  intros Hs H. apply selectNext_Ok in H.
  destruct H as [(_ & -> & _)|(t & q & rest & _ & Hq & -> & _)]; [exact Hs|].
  rewrite setList_threads.
  change (readyPriorityList (setList q rest st)) with (getList QPri (setList q rest st)).
  rewrite getList_setList. destruct (Queue_eqb QPri q) eqn:E; [|exact Hs].
  apply Queue_eqb_eq in E. subst q. simpl in Hq. rewrite Hq in Hs.
  inversion Hs; assumption.
Qed.

Lemma sorted_frame st st' :
  (forall q, getList q st' = getList q st) ->
  (forall x, In x (readyPriorityList st) ->
     priority (threads st' x) = priority (threads st x)) ->
  StronglySorted (byPriority (threads st)) (readyPriorityList st) ->
  StronglySorted (byPriority (threads st')) (readyPriorityList st').
Proof.
  intros Hq Hp Hs. pose proof (Hq QPri) as E. simpl in E. rewrite E.
  apply byPriority_ext with (threads st); assumption.
Qed.

Lemma reachable_sorted cfg st :
  reachable cfg st ->
  StronglySorted (byPriority (threads st)) (readyPriorityList st).
Proof.
  induction 1 as [st He|st st' Hr IH [Hq Ht]|st t st' Hr IH Hn H|st st' Hr IH H|
                  st st' Hr IH H|st r st' Hr IH H|st n f st' Hr IH Hn H|
                  st o st' Hr IH H].
  - unfold allReady in He. apply app_eq_nil in He. destruct He as [_ He].
    apply app_eq_nil in He. destruct He as [_ He]. rewrite He. constructor.
  - apply sorted_frame with st; [exact Hq| |exact IH].
    intros x Hx. rewrite Ht; [reflexivity|].
    apply (In_getList_allReady QPri). exact Hx.
  - destruct (level st) eqn:Hl.
    2:{ rewrite ReadyToRun_on in H by assumption. discriminate. }
    rewrite ReadyToRun_off in H by assumption. inversion H; subst st'.
    assert (Hs : StronglySorted (byPriority (threads (readied cfg t st)))
                   (readyPriorityList st)).
    { apply byPriority_ext with (threads st); [|exact IH].
      intros x _. apply readied_priority. }
    pose proof (readied_getList cfg t st QPri) as G.
    change (getList QPri (readied cfg t st))
      with (readyPriorityList (readied cfg t st)) in G.
    rewrite G. destruct (Queue_eqb QPri _); [|exact Hs].
    apply appended_sorted_priority, Hs.
  - rewrite (processMoving_noop cfg st (part_band _ _ (reachable_Partition cfg st Hr))) in H.
    inversion H; subst. exact IH.
  - apply (sorted_aging cfg st st' (reachable_Partition cfg st Hr) IH H).
  - destruct (FindNextToRun_Ok_inv cfg _ _ _ H) as (_ & s1 & E1 & E2).
    apply (sorted_selectNext r s1 st'); [|exact E2].
    apply (sorted_aging cfg st s1 (reachable_Partition cfg st Hr) IH E1).
  - apply Run_Ok_frame in H. destruct H as (Hq & Hp & _).
    apply sorted_frame with st; [exact Hq|intros x _; apply Hp|exact IH].
  - apply Run_resumed_frame in H. destruct H as (Hq & Ht).
    apply sorted_frame with st; [exact Hq|intros x _; rewrite Ht; reflexivity|exact IH].
Qed.

(** X9 (the Priority list stays ordered).  In every state the kernel
    reaches by calling the scheduler, the Priority list is in descending
    order of the current priorities of its threads: [ReadyToRun] inserts in
    order, [aging] takes a boosted thread off the list and inserts it again,
    and no call changes the priority of a listed thread otherwise. *)
Theorem Priority_list_sorted cfg st :
  reachable cfg st ->
  StronglySorted (fun x y => priority (threads st y) <= priority (threads st x))
    (readyPriorityList st).
Proof. apply reachable_sorted. Qed.

Lemma Priority_list_sorted_witness :
  StronglySorted
    (fun x y => priority (threads sampleLater y) <= priority (threads sampleLater x))
    (readyPriorityList sampleLater) /\
  readyPriorityList sampleLater = [5; 6]%nat.
Proof.
  split; [|vm_compute; reflexivity].
  apply (Priority_list_sorted sampleConfig sampleLater).
  apply sampleLater_reachable.
Defined.

(** X10 (highest priority first in the Priority band).  From a partitioned
    state whose Priority list is in descending order, with the thresholds in
    order: when [FindNextToRun] returns a thread of the Priority band, no
    thread left on the ready lists has a higher priority. *)
Theorem FindNextToRun_highest_priority cfg st t st' :
  PRI_SCHD_THRESHHOLD cfg < SJF_SCHD_THRESHHOLD cfg ->
  Partition cfg st ->
  StronglySorted (byPriority (threads st)) (readyPriorityList st) ->
  FindNextToRun cfg st = Ok (Some t) st' ->
  priority (threads st' t) < PRI_SCHD_THRESHHOLD cfg ->
  forall u, In u (allReady st') -> priority (threads st' u) <= priority (threads st' t).
Proof.
  intros Hord P Hs H Hlow u Hu.
  destruct (FindNextToRun_Ok_inv cfg _ _ _ H) as (Hl & s1 & E1 & E2).
  pose proof (sorted_aging cfg st s1 P Hs E1) as Hs1.
  pose proof (Partition_aging cfg st s1 P E1) as P1.
  apply selectNext_Ok in E2.
  destruct E2 as [(Hr & _)|(v & q & rest & Hr & Hq & -> & Hcase)]; [discriminate|].
  inversion Hr; subst v.
  rewrite !setList_threads in *.
  assert (Ht : inBand cfg q (priority (threads s1 t))).
  { apply (part_band _ _ P1 q t). rewrite Hq. left. reflexivity. }
  destruct Hcase as [->|[(-> & E)|(-> & E & E')]]; simpl in Ht; try lia.
  simpl in Hq. rewrite Hq in Hs1. inversion Hs1 as [|? ? _ Hall]; subst.
  rewrite Forall_forall in Hall. apply Hall.
  unfold allReady in Hu. simpl in Hu. rewrite E, E' in Hu. exact Hu.
Qed.

Lemma FindNextToRun_highest_priority_witness :
  exists st',
    FindNextToRun sampleConfig sampleWaiting = Ok (Some 5%nat) st' /\
    priority (threads st' 5%nat) = 45 /\
    forall u, In u (allReady st') -> priority (threads st' u) <= priority (threads st' 5%nat).
Proof.
  exists (stateOf (FindNextToRun sampleConfig sampleWaiting)).
  split; [vm_compute; reflexivity|]. split; [vm_compute; reflexivity|].
  apply (FindNextToRun_highest_priority sampleConfig sampleWaiting).
  - simpl. lia.
  - apply Partition_kernelStep with sampleLater.
    + apply reachable_Partition, sampleLater_reachable.
    + split; [intros q; destruct q; vm_compute; reflexivity|].
      intros x _. vm_compute. reflexivity.
  - vm_compute. repeat constructor.
    + intros H. discriminate H.
  - vm_compute. reflexivity.
  - vm_compute. reflexivity.
Defined.

(** X11 (what selection never touches).  Whenever [FindNextToRun] returns,
    the kernel's current thread, clock and interrupt level and the
    destruction slot are as before, and so are the burst estimate, the burst
    start, the address space and the stack of every thread.  The priority of
    a thread that was not on the Priority list is as before; and when
    [PRIORITY_AGING] is not negative, no priority has gone down. *)
Theorem FindNextToRun_frame cfg st r st' :
  FindNextToRun cfg st = Ok r st' ->
  currentThread st' = currentThread st /\
  toBeDestroyed st' = toBeDestroyed st /\
  totalTicks st' = totalTicks st /\
  level st' = level st /\
  (forall x, burstTime (threads st' x) = burstTime (threads st x) /\
             startBurst (threads st' x) = startBurst (threads st x) /\
             space (threads st' x) = space (threads st x) /\
             stackIntact (threads st' x) = stackIntact (threads st x)) /\
  (forall x, ~ In x (readyPriorityList st) ->
             priority (threads st' x) = priority (threads st x)) /\
  (0 <= PRIORITY_AGING cfg ->
   forall x, priority (threads st x) <= priority (threads st' x)).
Proof.
  intros H.
  destruct (FindNextToRun_Ok_inv cfg _ _ _ H) as (_ & s1 & E1 & E2).
  destruct (aging_Ok_inv cfg _ _ E1) as (sA & EA & EM).
  assert (F : schedFrame st st').
  { apply schedFrame_trans with sA; [apply (schedFrame_agingLoop cfg _ _ _ EA)|].
    apply schedFrame_trans with s1; [apply (schedFrame_processMoving cfg _ _ EM)|].
    apply selectNext_Ok in E2.
    destruct E2 as [(_ & -> & _)|(t & q & rest & _ & _ & -> & _)].
    - apply schedFrame_refl.
    - apply schedFrame_setList. }
  assert (T : forall x, threads st' x = threads s1 x).
  { intros x. apply selectNext_Ok in E2.
    destruct E2 as [(_ & -> & _)|(t & q & rest & _ & _ & -> & _)];
      [reflexivity|rewrite setList_threads; reflexivity]. }
  destruct F as (F1 & F2 & F3 & F4 & F5).
  destruct (priority_agingLoop cfg _ _ _ EA) as [Q1 Q2].
  repeat (split; [assumption|]). split.
  - intros x Hx. rewrite T, (priority_processMoving cfg _ _ EM). apply Q1, Hx.
  - intros HA x. rewrite T, (priority_processMoving cfg _ _ EM). apply Q2, HA.
Qed.

Lemma FindNextToRun_frame_witness :
  currentThread sampleSelected = currentThread sampleLater /\
  toBeDestroyed sampleSelected = toBeDestroyed sampleLater /\
  totalTicks sampleSelected = totalTicks sampleLater /\
  level sampleSelected = level sampleLater /\
  (forall x, burstTime (threads sampleSelected x) = burstTime (threads sampleLater x) /\
             startBurst (threads sampleSelected x) = startBurst (threads sampleLater x) /\
             space (threads sampleSelected x) = space (threads sampleLater x) /\
             stackIntact (threads sampleSelected x) = stackIntact (threads sampleLater x)) /\
  (forall x, ~ In x (readyPriorityList sampleLater) ->
             priority (threads sampleSelected x) = priority (threads sampleLater x)) /\
  (0 <= 10 ->
   forall x, priority (threads sampleLater x) <= priority (threads sampleSelected x)).
Proof.
  apply (FindNextToRun_frame sampleConfig sampleLater (Some 5%nat) sampleSelected).
  vm_compute. reflexivity.
Defined.

(** X12 (no second boost for the same wait).  With [AGING_TICKS] positive
    and the thresholds in order, from a partitioned state with interrupts
    off: a call of [aging] right after a first one, at the same tick, finds
    no thread due and nothing to move, and returns in the state the first
    call returned in. *)
Theorem aging_twice cfg st :
  0 < AGING_TICKS cfg ->
  PRI_SCHD_THRESHHOLD cfg < SJF_SCHD_THRESHHOLD cfg ->
  level st = IntOff ->
  Partition cfg st ->
  exists st1,
    aging cfg QPri st = Ok tt st1 /\
    aging cfg QPri st1 = Ok tt st1.
Proof.
  intros Hpos Hord Hl P.
  destruct (aging_pass cfg st Hl P) as (sA & st1 & A & S & _ & E & P1).
  exists st1. split; [exact E|].
  rewrite aging_Pri_loops. unfold bind.
  rewrite forEach_noop.
  - apply processMoving_noop. apply (part_band _ _ P1).
  - intros t Ht. rewrite agingBody_Pri.
    assert (Hw : (totalTicks st1 - startReadyTime (threads st1 t) >=? AGING_TICKS cfg)
                 = false).
    { rewrite Z.geb_leb. apply Z.leb_gt.
      rewrite (sw_ticks _ _ _ _ S), (ag_ticks _ _ _ _ A).
      assert (Hlow : priority (threads sA t) < PRI_SCHD_THRESHHOLD cfg).
      { rewrite <- (Sweep_priority cfg sA _ st1 t S). apply (part_band _ _ P1 QPri t Ht). }
      assert (Hin : In t (readyPriorityList st)).
      { assert (Hall : In t (allReady st)).
        { apply (Permutation_in _ (aging_pass_perm cfg st sA st1 A S)).
          apply (In_getList_allReady QPri). exact Ht. }
        apply In_allReady in Hall. destruct Hall as (q & Hq).
        destruct q; [exfalso|exact Hq|exfalso].
        - assert (Hn : ~ In t (readyPriorityList st)).
          { intros Hp.
            assert (QRR = QPri) by
              (apply (NoDup_two_lists QRR QPri st t (part_once _ _ P)); assumption).
            discriminate. }
          rewrite (ag_todo _ _ _ _ A t (or_introl Hn)) in Hlow.
          pose proof (part_band _ _ P QRR t Hq) as Hb. simpl in Hb. lia.
        - assert (Hn : ~ In t (readyPriorityList st)).
          { intros Hp.
            assert (QSJF = QPri) by
              (apply (NoDup_two_lists QSJF QPri st t (part_once _ _ P)); assumption).
            discriminate. }
          rewrite (ag_todo _ _ _ _ A t (or_introl Hn)) in Hlow.
          pose proof (part_band _ _ P QSJF t Hq) as Hb. simpl in Hb. lia. }
      pose proof (ag_done _ _ _ _ A t Hin (fun H => H)) as HtA.
      unfold agedThread in HtA.
      destruct (sw_touch _ _ _ _ S t) as [T|T]; rewrite T.
      - rewrite HtA.
        destruct (totalTicks st - startReadyTime (threads st t) >=? AGING_TICKS cfg) eqn:Ew.
        + simpl. lia.
        + rewrite Z.geb_leb in Ew. apply Z.leb_gt in Ew. exact Ew.
      - simpl. rewrite (ag_ticks _ _ _ _ A). lia. }
    rewrite Hw. reflexivity.
Qed.

Lemma aging_twice_witness :
  exists st1,
    aging sampleConfig QPri sampleLater = Ok tt st1 /\
    aging sampleConfig QPri st1 = Ok tt st1.
Proof.
  apply (aging_twice sampleConfig sampleLater).
  - simpl. lia.
  - simpl. lia.
  - vm_compute. reflexivity.
  - apply reachable_Partition, sampleLater_reachable.
Defined.

(** X13 (shortest job first, as long as the list is in order).  From a
    partitioned state with interrupts off, whose SJF list is in ascending
    order of the burst estimates and whose SJF and Priority threads have
    estimates that are numbers: the aging pass of [FindNextToRun] leaves the
    SJF list in ascending order, threads promoted into it included, so the
    thread taken from its front has an estimate no larger than that of any
    thread of the list. *)
Theorem aging_keeps_SJF_order cfg st :
  level st = IntOff ->
  Partition cfg st ->
  (forall t, In t (readySJFList st ++ readyPriorityList st) ->
     PrimFloat.is_nan (burstTime (threads st t)) = false) ->
  StronglySorted (byBurst (threads st)) (readySJFList st) ->
  exists st1,
    aging cfg QPri st = Ok tt st1 /\
    FindNextToRun cfg st = selectNext st1 /\
    StronglySorted (byBurst (threads st1)) (readySJFList st1) /\
    forall t rest, readySJFList st1 = t :: rest ->
      FindNextToRun cfg st = Ok (Some t) (setList QSJF rest st1) /\
      forall u, In u rest ->
        PrimFloat.leb (burstTime (threads st1 t)) (burstTime (threads st1 u)) = true.
Proof.
  intros Hl P Hnan Hs.
  destruct (FindNextToRun_pass cfg st Hl P) as (sA & st1 & A & S & Pr & E & _ & F).
  assert (Hs1 : StronglySorted (byBurst (threads st1)) (readySJFList st1)).
  { apply (pr_SJF_sorted _ _ _ Pr).
    - intros t Ht. rewrite (Aging_burstTime cfg st sA t A). apply Hnan.
      apply in_app_or in Ht. apply in_or_app.
      destruct Ht as [Ht|Ht].
      + left. rewrite <- (ag_SJF _ _ _ _ A). exact Ht.
      + right. apply (Permutation_in _ (ag_perm _ _ _ _ A)). exact Ht.
    - rewrite (ag_SJF _ _ _ _ A).
      apply byBurst_ext with (threads st); [|exact Hs].
      intros x. apply (Aging_burstTime cfg st sA x A). }
  exists st1. split; [exact E|]. split; [exact F|]. split; [exact Hs1|].
  intros t rest Hq. split.
  - rewrite F, selectNext_spec, Hq. reflexivity.
  - rewrite Hq in Hs1. inversion Hs1 as [|? ? _ Hall]; subst.
    rewrite Forall_forall in Hall. exact Hall.
Qed.

Lemma samplePromote_reachable : reachable sampleBigBoost samplePromote.
Proof.
  apply reach_kernel
    with (st := stateOf (readyAll sampleBigBoost [1; 2; 5]%nat sampleBoot)).
  - apply reach_ReadyToRun
      with (st := stateOf (readyAll sampleBigBoost [1; 2]%nat sampleBoot)) (thread := 5%nat).
    + apply reach_ReadyToRun
        with (st := stateOf (readyAll sampleBigBoost [1]%nat sampleBoot)) (thread := 2%nat).
      * apply reach_ReadyToRun with (st := sampleBoot) (thread := 1%nat).
        -- apply reach_init. reflexivity.
        -- vm_compute. tauto.
        -- vm_compute. reflexivity.
      * vm_compute. intros [H|[]]. discriminate H.
      * vm_compute. reflexivity.
    + vm_compute. intros [H|[H|[]]]; discriminate H.
    + vm_compute. reflexivity.
  - split.
    + intros q. destruct q; vm_compute; reflexivity.
    + intros t _. vm_compute. reflexivity.
Qed.

Lemma aging_keeps_SJF_order_witness :
  exists st1,
    aging sampleBigBoost QPri samplePromote = Ok tt st1 /\
    readySJFList samplePromote = [2; 1]%nat /\
    readySJFList st1 = [2; 5; 1]%nat /\
    StronglySorted (byBurst (threads st1)) (readySJFList st1) /\
    FindNextToRun sampleBigBoost samplePromote = Ok (Some 2%nat) (setList QSJF [5; 1]%nat st1).
Proof.
  destruct (aging_keeps_SJF_order sampleBigBoost samplePromote)
    as (st1 & E & F & Hs & Hmin).
  - vm_compute. reflexivity.
  - apply reachable_Partition, samplePromote_reachable.
  - intros t Ht. vm_compute in Ht.
    destruct Ht as [<-|[<-|[<-|[]]]]; vm_compute; reflexivity.
  - repeat (constructor; try (vm_compute; reflexivity)).
  - assert (E1 : st1 = stateOf (aging sampleBigBoost QPri samplePromote))
      by (rewrite E; reflexivity).
    assert (L : readySJFList st1 = [2; 5; 1]%nat)
      by (rewrite E1; vm_compute; reflexivity).
    exists st1. split; [exact E|]. split; [vm_compute; reflexivity|].
    split; [exact L|]. split; [exact Hs|].
    apply (Hmin 2%nat [5; 1]%nat L).
Defined.

(** ** Dispatch and deferred destruction *)

Lemma Run_dispatch_more nextThread finishing st :
  nextThread <> currentThread st ->
  level st = IntOff ->
  (finishing = true -> toBeDestroyed st = None) ->
  stackIntact (threads st (currentThread st)) = true ->
  exists st',
    Run nextThread finishing st = Ok tt st' /\
    level st' = IntOff /\
    trace st' = trace st ++
      (if space (threads st (currentThread st))
       then [EvSaveUserState (currentThread st); EvSpaceSaveState (currentThread st)]
       else []) ++
      [EvCheckOverflow (currentThread st);
       EvProcessRunning nextThread (totalTicks st);
       EvSWITCH (currentThread st) nextThread] /\
    (forall x, x <> currentThread st ->
       burstTime (threads st' x) = burstTime (threads st x)) /\
    (forall x, space (threads st' x) = space (threads st x)).
Proof.
  intros Hne Hl Hfin Hstack. unfold Run, bind, gets.
  destruct (Nat.eqb (currentThread st) nextThread) eqn:E.
  { apply Nat.eqb_eq in E. congruence. }
  unfold ASSERT, interruptsOff. rewrite Hl.
  destruct finishing.
  - rewrite (Hfin eq_refl). cbn.
    destruct (space (threads st (currentThread st))) eqn:Es; cbn;
      unfold ASSERT; cbn; rewrite Hstack; cbn;
      (eexists; split; [reflexivity|]); cbn;
      (split; [exact Hl|]);
      (split; [rewrite <- !app_assoc; reflexivity|]);
      split; intros x; try intros Hx;
      destruct (Nat.eqb x nextThread) eqn:E1;
      destruct (Nat.eqb x (currentThread st)) eqn:E2; try reflexivity;
      apply Nat.eqb_eq in E2; congruence.
  - cbn.
    destruct (space (threads st (currentThread st))) eqn:Es; cbn;
      unfold ASSERT; cbn; rewrite Hstack; cbn;
      (eexists; split; [reflexivity|]); cbn;
      (split; [exact Hl|]);
      (split; [rewrite <- !app_assoc; reflexivity|]);
      split; intros x; try intros Hx;
      destruct (Nat.eqb x nextThread) eqn:E1;
      destruct (Nat.eqb x (currentThread st)) eqn:E2; try reflexivity;
      apply Nat.eqb_eq in E2; congruence.
Qed.

Lemma Run_slot_occupied nextThread st d :
  nextThread <> currentThread st ->
  level st = IntOff ->
  toBeDestroyed st = Some d ->
  Run nextThread true st = Stop AssertionFailed st.
Proof.
  intros Hne Hl Hd. unfold Run, bind, gets.
  destruct (Nat.eqb (currentThread st) nextThread) eqn:E.
  { apply Nat.eqb_eq in E. congruence. }
  unfold ASSERT, interruptsOff. rewrite Hl, Hd. reflexivity.
Qed.

(** X14 (finishing twice).  [Run] for another thread with [finishing] set,
    while the destruction slot still holds a thread, stops on the assertion
    [toBeDestroyed == NULL]; nothing has been written at that point. *)
Theorem Run_double_finish nextThread st d :
  nextThread <> currentThread st ->
  level st = IntOff ->
  toBeDestroyed st = Some d ->
  Run nextThread true st = Stop AssertionFailed st.
Proof. apply Run_slot_occupied. Qed.

Lemma Run_double_finish_witness :
  Run 5%nat true sampleDoubleFinish = Stop AssertionFailed sampleDoubleFinish.
Proof.
  apply (Run_double_finish 5%nat sampleDoubleFinish 9%nat).
  - vm_compute. discriminate.
  - reflexivity.
  - reflexivity.
Defined.

Lemma Run_overflow_stops nextThread finishing st :
  nextThread <> currentThread st ->
  level st = IntOff ->
  (finishing = true -> toBeDestroyed st = None) ->
  stackIntact (threads st (currentThread st)) = false ->
  exists s,
    Run nextThread finishing st = Stop AssertionFailed s /\
    threads s = threads st /\
    currentThread s = currentThread st /\
    (forall q, getList q s = getList q st) /\
    toBeDestroyed s = (if finishing then Some (currentThread st) else toBeDestroyed st) /\
    trace s = trace st ++
      (if space (threads st (currentThread st))
       then [EvSaveUserState (currentThread st); EvSpaceSaveState (currentThread st)]
       else []) ++
      [EvCheckOverflow (currentThread st)].
Proof.
  intros Hne Hl Hfin Hstack. unfold Run, bind, gets.
  destruct (Nat.eqb (currentThread st) nextThread) eqn:E.
  { apply Nat.eqb_eq in E. congruence. }
  unfold ASSERT, interruptsOff. rewrite Hl.
  destruct finishing.
  - rewrite (Hfin eq_refl). cbn.
    destruct (space (threads st (currentThread st))) eqn:Es; cbn;
      unfold ASSERT; cbn; rewrite Hstack; cbn;
      (eexists; split; [reflexivity|]); cbn;
      repeat split; try reflexivity;
      try (intros q; destruct q; reflexivity);
      rewrite <- ?app_assoc; reflexivity.
  - cbn.
    destruct (space (threads st (currentThread st))) eqn:Es; cbn;
      unfold ASSERT; cbn; rewrite Hstack; cbn;
      (eexists; split; [reflexivity|]); cbn;
      repeat split; try reflexivity;
      try (intros q; destruct q; reflexivity);
      rewrite <- ?app_assoc; reflexivity.
Qed.

(** X15 (stack overflow of the outgoing thread).  When [CheckOverflow]
    fails, [Run] stops before the burst estimate is recomputed and before
    the switch: thread fields, current thread and ready lists are as before.
    What has happened by then is the recording of the finishing thread in
    the destruction slot and the saving of the user state. *)
Theorem Run_stack_overflow nextThread finishing st :
  nextThread <> currentThread st ->
  level st = IntOff ->
  (finishing = true -> toBeDestroyed st = None) ->
  stackIntact (threads st (currentThread st)) = false ->
  exists s,
    Run nextThread finishing st = Stop AssertionFailed s /\
    threads s = threads st /\
    currentThread s = currentThread st /\
    (forall q, getList q s = getList q st) /\
    toBeDestroyed s = (if finishing then Some (currentThread st) else toBeDestroyed st) /\
    trace s = trace st ++
      (if space (threads st (currentThread st))
       then [EvSaveUserState (currentThread st); EvSpaceSaveState (currentThread st)]
       else []) ++
      [EvCheckOverflow (currentThread st)].
Proof. apply Run_overflow_stops. Qed.

Lemma Run_stack_overflow_witness :
  exists s,
    Run 5%nat true sampleOverflow = Stop AssertionFailed s /\
    threads s = threads sampleOverflow /\
    currentThread s = 7%nat /\
    toBeDestroyed s = Some 7%nat /\
    trace s = [EvSaveUserState 7%nat; EvSpaceSaveState 7%nat; EvCheckOverflow 7%nat].
Proof.
  destruct (Run_stack_overflow 5%nat true sampleOverflow)
    as (s & E & Ht & Hc & _ & Hd & Htr).
  - vm_compute. discriminate.
  - reflexivity.
  - reflexivity.
  - reflexivity.
  - exists s. repeat split; assumption.
Defined.

(** X16 (dispatch never touches the ready lists).  Whatever the arguments
    and whatever the outcome -- return, or stop on an assertion -- the state
    [Run] ends in has the three ready lists and the priority of every
    thread as they were at the call. *)
Theorem Run_keeps_ready_lists nextThread finishing st :
  (forall q, getList q (stateOf (Run nextThread finishing st)) = getList q st) /\
  (forall x, priority (threads (stateOf (Run nextThread finishing st)) x)
             = priority (threads st x)).
Proof.
  destruct (Nat.eq_dec nextThread (currentThread st)) as [->|Hne].
  { rewrite Run_same_thread. simpl. auto. }
  destruct (level st) eqn:Hl.
  2:{ rewrite Run_on by assumption. simpl. auto. }
  destruct finishing.
  - destruct (toBeDestroyed st) as [d|] eqn:Hd.
    { rewrite (Run_slot_occupied nextThread st d) by assumption. simpl. auto. }
    destruct (stackIntact (threads st (currentThread st))) eqn:Hs.
    + destruct (Run_dispatch nextThread true st Hne Hl (fun _ => Hd) Hs)
        as (s & E & _ & _ & _ & _ & Hq & Hp & _).
      rewrite E. simpl. auto.
    + destruct (Run_overflow_stops nextThread true st Hne Hl (fun _ => Hd) Hs)
        as (s & E & Ht & _ & Hq & _).
      rewrite E. simpl. split; [exact Hq|]. intros x. rewrite Ht. reflexivity.
  - assert (Hfin : false = true -> toBeDestroyed st = None) by discriminate.
    destruct (stackIntact (threads st (currentThread st))) eqn:Hs.
    + destruct (Run_dispatch nextThread false st Hne Hl Hfin Hs)
        as (s & E & _ & _ & _ & _ & Hq & Hp & _).
      rewrite E. simpl. auto.
    + destruct (Run_overflow_stops nextThread false st Hne Hl Hfin Hs)
        as (s & E & Ht & _ & Hq & _).
      rewrite E. simpl. split; [exact Hq|]. intros x. rewrite Ht. reflexivity.
Qed.

Lemma CheckToBeDestroyed_spec st :
  CheckToBeDestroyed st =
  Ok tt (match toBeDestroyed st with
         | Some t => withToBeDestroyed None (withEvent (EvDelete t) st)
         | None => st
         end).
Proof.
  unfold CheckToBeDestroyed, bind, gets. destruct (toBeDestroyed st); reflexivity.
Qed.

Lemma Run_resumed_off oldThread st :
  level st = IntOff ->
  exists st',
    Run_resumed oldThread st = Ok tt st' /\
    toBeDestroyed st' = None /\
    threads st' = threads st /\
    (forall q, getList q st' = getList q st) /\
    currentThread st' = currentThread st /\
    trace st' = trace st ++
      (match toBeDestroyed st with Some t => [EvDelete t] | None => [] end) ++
      (if space (threads st oldThread)
       then [EvRestoreUserState oldThread; EvSpaceRestoreState oldThread]
       else []).
Proof.
  intros Hl. unfold Run_resumed, bind, ASSERT, interruptsOff. rewrite Hl.
  rewrite CheckToBeDestroyed_spec. unfold gets.
  destruct (toBeDestroyed st) eqn:Ed; cbn;
    destruct (space (threads st oldThread)); cbn;
    (eexists; split; [reflexivity|]); cbn;
    repeat split; try assumption; try reflexivity;
    try (intros q; destruct q; reflexivity);
    rewrite <- ?app_assoc, ?app_nil_r; reflexivity.
Qed.

(** X17 (destruction is deferred past the switch).  When the running thread
    dispatches another thread with [finishing] set -- interrupts off, slot
    free, stack intact -- [Run] reaches [SWITCH] with the running thread
    recorded in the destruction slot and not yet deleted: [SWITCH] is the
    last call it makes.  The thread is deleted by the part of [Run] that
    executes after a [SWITCH] has returned, in whichever thread that is;
    the slot is empty afterwards. *)
Theorem destruction_after_switch nextThread resumed st :
  nextThread <> currentThread st ->
  level st = IntOff ->
  toBeDestroyed st = None ->
  stackIntact (threads st (currentThread st)) = true ->
  exists st' st'' before restored,
    Run nextThread true st = Ok tt st' /\
    toBeDestroyed st' = Some (currentThread st) /\
    trace st' = trace st ++ before ++ [EvSWITCH (currentThread st) nextThread] /\
    ~ In (EvDelete (currentThread st)) before /\
    Run_resumed resumed st' = Ok tt st'' /\
    trace st'' = trace st' ++ EvDelete (currentThread st) :: restored /\
    ~ In (EvDelete (currentThread st)) restored /\
    toBeDestroyed st'' = None.
Proof.
  intros Hne Hl Hd Hs.
  destruct (Run_dispatch nextThread true st Hne Hl (fun _ => Hd) Hs)
    as (st' & E & _ & _ & _ & _ & _ & _ & _ & Hslot).
  destruct (Run_dispatch_more nextThread true st Hne Hl (fun _ => Hd) Hs)
    as (st2 & E2 & Hl' & Htr & _ & _).
  rewrite E in E2. inversion E2; subst st2.
  destruct (Run_resumed_off resumed st' Hl') as (st'' & R & Hnone & _ & _ & _ & Htr').
  rewrite Hslot in Htr'.
  exists st', st''.
  exists ((if space (threads st (currentThread st))
           then [EvSaveUserState (currentThread st); EvSpaceSaveState (currentThread st)]
           else []) ++
          [EvCheckOverflow (currentThread st);
           EvProcessRunning nextThread (totalTicks st)]).
  exists (if space (threads st' resumed)
          then [EvRestoreUserState resumed; EvSpaceRestoreState resumed] else []).
  split; [exact E|]. split; [exact Hslot|]. split.
  { rewrite Htr, <- !app_assoc. reflexivity. }
  split.
  { destruct (space (threads st (currentThread st))); simpl;
      intuition discriminate. }
  split; [exact R|]. split; [exact Htr'|]. split; [|exact Hnone].
  destruct (space (threads st' resumed)); simpl; intuition discriminate.
Qed.

Lemma destruction_after_switch_witness :
  exists st' st'',
    Run 5%nat true sampleLater = Ok tt st' /\
    toBeDestroyed st' = Some 0%nat /\
    Run_resumed 5%nat st' = Ok tt st'' /\
    toBeDestroyed st'' = None /\
    trace st'' = trace sampleLater ++
      [EvCheckOverflow 0%nat; EvProcessRunning 5%nat 2000; EvSWITCH 0%nat 5%nat;
       EvDelete 0%nat].
Proof.
  destruct (destruction_after_switch 5%nat 5%nat sampleLater)
    as (st' & st'' & before & restored & E & Hs & _ & _ & R & _ & _ & Hn).
  - vm_compute. discriminate.
  - vm_compute. reflexivity.
  - vm_compute. reflexivity.
  - vm_compute. reflexivity.
  - exists st', st''. split; [exact E|]. split; [exact Hs|]. split; [exact R|].
    split; [exact Hn|].
    assert (E1 : st' = stateOf (Run 5%nat true sampleLater)) by (rewrite E; reflexivity).
    assert (E2 : st'' = stateOf (Run_resumed 5%nat st')) by (rewrite R; reflexivity).
    rewrite E2, E1. vm_compute. reflexivity.
Defined.

(** X18 (the destruction check).  [CheckToBeDestroyed] always returns with
    the slot empty, having deleted the thread the slot held, if any, and
    nothing else: threads and ready lists are untouched.  On an empty slot
    it changes nothing, so a second call right after the first changes
    nothing. *)
Theorem CheckToBeDestroyed_drains st :
  exists st',
    CheckToBeDestroyed st = Ok tt st' /\
    toBeDestroyed st' = None /\
    trace st' = trace st ++
      (match toBeDestroyed st with Some t => [EvDelete t] | None => [] end) /\
    threads st' = threads st /\
    (forall q, getList q st' = getList q st) /\
    (toBeDestroyed st = None -> st' = st) /\
    CheckToBeDestroyed st' = Ok tt st'.
Proof.
  rewrite CheckToBeDestroyed_spec.
  destruct (toBeDestroyed st) as [t|] eqn:Ed.
  - eexists. split; [reflexivity|].
    split; [reflexivity|]. split; [reflexivity|]. split; [reflexivity|].
    split; [intros q; destruct q; reflexivity|].
    split; [discriminate|].
    rewrite CheckToBeDestroyed_spec. reflexivity.
  - exists st. split; [reflexivity|].
    split; [exact Ed|]. split; [rewrite app_nil_r; reflexivity|].
    split; [reflexivity|]. split; [reflexivity|]. split; [reflexivity|].
    rewrite CheckToBeDestroyed_spec, Ed. reflexivity.
Qed.

(** X19 (resuming after a switch).  The part of [Run] that follows
    [SWITCH] stops on its assertion, before the destruction check, when
    interrupts are enabled: the pending thread is then not deleted.  With
    interrupts off it returns with the slot drained, the user state of the
    resumed thread restored if it has an address space, and threads, ready
    lists and current thread as they were. *)
Theorem Run_resumed_behaviour oldThread st :
  (level st = IntOn -> Run_resumed oldThread st = Stop AssertionFailed st) /\
  (level st = IntOff ->
   exists st',
     Run_resumed oldThread st = Ok tt st' /\
     toBeDestroyed st' = None /\
     threads st' = threads st /\
     (forall q, getList q st' = getList q st) /\
     currentThread st' = currentThread st /\
     trace st' = trace st ++
       (match toBeDestroyed st with Some t => [EvDelete t] | None => [] end) ++
       (if space (threads st oldThread)
        then [EvRestoreUserState oldThread; EvSpaceRestoreState oldThread]
        else [])).
Proof.
  split.
  - intros Hl. unfold Run_resumed, bind, ASSERT, interruptsOff. rewrite Hl. reflexivity.
  - apply Run_resumed_off.
Qed.

(** ** Dispatch and the order of the SJF list *)

Lemma SFleb_not_ltb x y : SFleb x y = true -> SFltb y x = false.
Proof.
  unfold SFltb, SFleb.
  destruct x as [sx|sx| |sx mx ex], y as [sy|sy| |sy my ey]; simpl; try congruence;
    try (destruct sx; simpl; congruence);
    try (destruct sy; simpl; congruence);
    try (destruct sx, sy; simpl; congruence).
  destruct sx, sy; simpl; try congruence;
    destruct (Z.compare_spec ex ey), (Z.compare_spec ey ex);
    simpl; try congruence; try lia; subst; fold_Pos_compare;
    destruct (Pos.compare_spec mx my), (Pos.compare_spec my mx);
    simpl; try congruence; try lia.
Qed.

Lemma float_leb_not_ltb a b :
  PrimFloat.leb a b = true -> PrimFloat.ltb b a = false.
Proof. rewrite FloatAxioms.ltb_spec, FloatAxioms.leb_spec. apply SFleb_not_ltb. Qed.

Lemma StronglySorted_adjacent (R : ThreadPtr -> ThreadPtr -> Prop) pre a b post :
  StronglySorted R (pre ++ a :: b :: post) -> R a b.
Proof.
  induction pre as [|x pre IH]; simpl; intros H.
  - inversion H as [|? ? _ Hall]; subst. inversion Hall; assumption.
  - inversion H; subst. apply IH. assumption.
Qed.

Lemma Run_unsorts pre u post nextThread finishing st :
  nextThread <> currentThread st ->
  level st = IntOff ->
  (finishing = true -> toBeDestroyed st = None) ->
  stackIntact (threads st (currentThread st)) = true ->
  readySJFList st = pre ++ currentThread st :: u :: post ->
  u <> currentThread st ->
  PrimFloat.ltb (burstTime (threads st u))
    (PrimFloat.mul 0.5%float
       (PrimFloat.add
          (double_of_int (totalTicks st - startBurst (threads st (currentThread st))))
          (burstTime (threads st (currentThread st))))) = true ->
  exists st',
    Run nextThread finishing st = Ok tt st' /\
    readySJFList st' = readySJFList st /\
    ~ StronglySorted (byBurst (threads st')) (readySJFList st').
Proof.
  intros Hne Hl Hfin Hs Hq Hu Hlt.
  destruct (Run_dispatch nextThread finishing st Hne Hl Hfin Hs)
    as (st' & E & Hb & _ & _ & _ & Hlists & _).
  destruct (Run_dispatch_more nextThread finishing st Hne Hl Hfin Hs)
    as (st2 & E2 & _ & _ & Hbu & _).
  rewrite E in E2. inversion E2; subst st2.
  exists st'. split; [exact E|].
  pose proof (Hlists QSJF) as L. simpl in L.
  split; [exact L|].
  rewrite L, Hq. intros Hsorted.
  apply StronglySorted_adjacent in Hsorted. unfold byBurst in Hsorted.
  rewrite Hb, (Hbu u Hu) in Hsorted.
  apply float_leb_not_ltb in Hsorted. congruence.
Qed.

(** X20 (dispatch can leave the SJF list out of order).  [Run] rewrites the
    burst estimate of the outgoing thread and never repositions a thread.
    So when the outgoing thread is on the SJF list -- it was made ready
    before the dispatch -- directly in front of a thread whose estimate is
    smaller than the new one, the list is the same after the call and is no
    longer in ascending order of the estimates. *)
Theorem Run_leaves_SJF_unsorted pre u post nextThread finishing st :
  nextThread <> currentThread st ->
  level st = IntOff ->
  (finishing = true -> toBeDestroyed st = None) ->
  stackIntact (threads st (currentThread st)) = true ->
  readySJFList st = pre ++ currentThread st :: u :: post ->
  u <> currentThread st ->
  PrimFloat.ltb (burstTime (threads st u))
    (PrimFloat.mul 0.5%float
       (PrimFloat.add
          (double_of_int (totalTicks st - startBurst (threads st (currentThread st))))
          (burstTime (threads st (currentThread st))))) = true ->
  exists st',
    Run nextThread finishing st = Ok tt st' /\
    readySJFList st' = readySJFList st /\
    (StronglySorted (byBurst (threads st')) (readySJFList st') -> False).
Proof. apply Run_unsorts. Qed.

Lemma Run_leaves_SJF_unsorted_witness :
  StronglySorted (byBurst (threads sampleYield)) (readySJFList sampleYield) /\
  exists st',
    Run 2%nat false sampleYield = Ok tt st' /\
    readySJFList st' = [1; 3]%nat /\
    burstTime (threads st' 1%nat) = 52.5%float /\
    burstTime (threads st' 3%nat) = 8%float /\
    (StronglySorted (byBurst (threads st')) (readySJFList st') -> False).
Proof.
  split.
  { repeat (constructor; try (vm_compute; reflexivity)). }
  destruct (Run_leaves_SJF_unsorted [] 3%nat [] 2%nat false sampleYield)
    as (st' & E & L & Hn).
  - vm_compute. discriminate.
  - vm_compute. reflexivity.
  - discriminate.
  - vm_compute. reflexivity.
  - vm_compute. reflexivity.
  - vm_compute. discriminate.
  - vm_compute. reflexivity.
  - assert (E1 : st' = stateOf (Run 2%nat false sampleYield)) by (rewrite E; reflexivity).
    exists st'. split; [exact E|].
    split; [rewrite L; vm_compute; reflexivity|].
    split; [rewrite E1; vm_compute; reflexivity|].
    split; [rewrite E1; vm_compute; reflexivity|exact Hn].
Defined.

(** ** Construction *)

(** X21 (a new scheduler).  Whatever the kernel state, the constructor
    leaves a scheduler with nothing ready and nothing to destroy: the state
    is one the partition invariant starts from, the destruction check does
    nothing, and with interrupts off [FindNextToRun] returns NULL and
    changes nothing. *)
Theorem Scheduler_starts_empty cfg st :
  exists s0,
    Scheduler_Scheduler st = Ok tt s0 /\
    allReady s0 = [] /\
    toBeDestroyed s0 = None /\
    threads s0 = threads st /\
    currentThread s0 = currentThread st /\
    reachable cfg s0 /\
    CheckToBeDestroyed s0 = Ok tt s0 /\
    (level st = IntOff -> FindNextToRun cfg s0 = Ok None s0).
Proof.
  eexists. split; [reflexivity|]. cbn.
  split; [reflexivity|]. split; [reflexivity|]. split; [reflexivity|].
  split; [reflexivity|]. split; [apply reach_init; reflexivity|].
  split; [reflexivity|].
  intros Hl. rewrite FindNextToRun_quiescent.
  - reflexivity.
  - exact Hl.
  - reflexivity.
  - intros q t Ht. destruct q; destruct Ht.
Qed.
